(** * simple_units: a shallow embedding of [units.hpp]

    The header defines [su::unit<Tag, Rep, Scale>], a quantity that stores one
    number ([m_val]) and carries its dimension tag, its representation and
    its rational scale as template arguments.  Template arguments are
    compile-time data; here they are record fields, and a use the compiler
    would reject evaluates to [IllFormed].  Run-time arithmetic on counts
    is the arithmetic of the host language on fixed-width integers (LP64:
    [int] is 32 bits, [long] and [intmax_t] are 64 bits): signed overflow and
    division by zero are undefined behaviour ([Undefined]), unsigned
    arithmetic and integral conversions wrap around.

    Floating-point representations are tracked at the type level only (the
    guards of the constructors and the well-formedness of instantiations);
    values are embedded for the integral representations. *)

From Stdlib Require Import ZArith QArith Bool List Lia String Zwf.
From Equations Require Import Equations.
Import ListNotations.

Local Open Scope Z_scope.

(** ** Outcomes of a use of the library *)

Inductive outcome (A : Type) : Type :=
| Ok (a : A)      (* well-formed, and evaluates to [a] *)
| IllFormed       (* rejected at compile time *)
| Undefined.      (* compiles, the evaluation has undefined behaviour *)

Arguments Ok {A} a.
Arguments IllFormed {A}.
Arguments Undefined {A}.

Definition bind {A B : Type} (m : outcome A) (k : A -> outcome B) : outcome B :=
  match m with
  | Ok a => k a
  | IllFormed => IllFormed
  | Undefined => Undefined
  end.

Notation "x <- m ;; k" := (bind m (fun x => k))
  (at level 61, m at next level, right associativity).

(** ** The host language's arithmetic types *)

Module Cxx.

(** [int8_t] ... [uint64_t]. *)
Inductive IntRep : Type := I8 | U8 | I16 | U16 | I32 | U32 | I64 | U64.

(** [float], [double], [long double]. *)
Inductive FloatRep : Type := F32 | F64 | F80.

Inductive Rep : Type :=
| Integral (i : IntRep)
| Floating (f : FloatRep).

Definition IntRep_eqb (a b : IntRep) : bool :=
  match a, b with
  | I8, I8 | U8, U8 | I16, I16 | U16, U16
  | I32, I32 | U32, U32 | I64, I64 | U64, U64 => true
  | _, _ => false
  end.

Definition bits (t : IntRep) : Z :=
  match t with
  | I8 | U8 => 8
  | I16 | U16 => 16
  | I32 | U32 => 32
  | I64 | U64 => 64
  end.

Definition is_signed (t : IntRep) : bool :=
  match t with
  | I8 | I16 | I32 | I64 => true
  | U8 | U16 | U32 | U64 => false
  end.

(** [std::numeric_limits<t>::min()] and [max()]. *)
Definition min_of (t : IntRep) : Z :=
  if is_signed t then - 2 ^ (bits t - 1) else 0.

Definition max_of (t : IntRep) : Z :=
  if is_signed t then 2 ^ (bits t - 1) - 1 else 2 ^ bits t - 1.

Definition in_range (t : IntRep) (z : Z) : Prop :=
  min_of t <= z <= max_of t.

Definition fits (t : IntRep) (z : Z) : bool :=
  (min_of t <=? z) && (z <=? max_of t).

(** Integral conversion to [t]: the value congruent modulo [2 ^ bits t]. *)
Definition convert (t : IntRep) (z : Z) : Z :=
  if is_signed t
  then (z + 2 ^ (bits t - 1)) mod 2 ^ bits t - 2 ^ (bits t - 1)
  else z mod 2 ^ bits t.

(** Integral promotion: everything narrower than [int] becomes [int]. *)
Definition promote (t : IntRep) : IntRep :=
  match t with
  | I8 | U8 | I16 | U16 => I32
  | _ => t
  end.

(** The usual arithmetic conversions on promoted operands. *)
Definition uac (a b : IntRep) : IntRep :=
  match a, b with
  | U64, _ | _, U64 => U64
  | I64, _ | _, I64 => I64
  | U32, _ | _, U32 => U32
  | _, _ => I32
  end.

(** The type in which a binary arithmetic operator on [a] and [b] is
    evaluated. *)
Definition arith (a b : IntRep) : IntRep := uac (promote a) (promote b).

(** [std::common_type_t<a, b>]: [decltype(false ? a : b)]; two operands of
    one type keep it, otherwise the usual arithmetic conversions apply. *)
Definition common_type (a b : IntRep) : IntRep :=
  if IntRep_eqb a b then a else arith a b.

Definition fmax (f g : FloatRep) : FloatRep :=
  match f, g with
  | F80, _ | _, F80 => F80
  | F64, _ | _, F64 => F64
  | _, _ => F32
  end.

Definition common_rep (a b : Rep) : Rep :=
  match a, b with
  | Integral i, Integral j => Integral (common_type i j)
  | Floating f, Integral _ => Floating f
  | Integral _, Floating g => Floating g
  | Floating f, Floating g => Floating (fmax f g)
  end.

Definition arith_rep (a b : Rep) : Rep :=
  match a, b with
  | Integral i, Integral j => Integral (arith i j)
  | Floating f, Integral _ => Floating f
  | Integral _, Floating g => Floating g
  | Floating f, Floating g => Floating (fmax f g)
  end.

(** An integral value together with its static type. *)
Record tval : Type := TV { ty : IntRep; val : Z }.

(** [T(x)] / [static_cast<T>(x)] / initialisation of a [T] from [x]. *)
Definition cast (t : IntRep) (x : tval) : tval := TV t (convert t (val x)).

(** The result [z] of an operation evaluated in type [W]. *)
Definition arith_result (W : IntRep) (z : Z) : outcome tval :=
  if is_signed W
  then if fits W z then Ok (TV W z) else Undefined
  else Ok (TV W (convert W z)).

Definition c_add (x y : tval) : outcome tval :=
  let W := arith (ty x) (ty y) in
  arith_result W (convert W (val x) + convert W (val y)).

Definition c_sub (x y : tval) : outcome tval :=
  let W := arith (ty x) (ty y) in
  arith_result W (convert W (val x) - convert W (val y)).

Definition c_mul (x y : tval) : outcome tval :=
  let W := arith (ty x) (ty y) in
  arith_result W (convert W (val x) * convert W (val y)).

(** [/] truncates towards zero. *)
Definition c_div (x y : tval) : outcome tval :=
  let W := arith (ty x) (ty y) in
  let b := convert W (val y) in
  if b =? 0 then Undefined
  else arith_result W (Z.quot (convert W (val x)) b).

(** [%]: undefined whenever the quotient is. *)
Definition c_rem (x y : tval) : outcome tval :=
  let W := arith (ty x) (ty y) in
  let a := convert W (val x) in
  let b := convert W (val y) in
  if b =? 0 then Undefined
  else _ <- arith_result W (Z.quot a b) ;; arith_result W (Z.rem a b).

(** Unary [-], on the promoted operand. *)
Definition c_neg (x : tval) : outcome tval :=
  let W := promote (ty x) in
  arith_result W (- convert W (val x)).

End Cxx.

Import Cxx.

(** ** Compile-time rational arithmetic: [<ratio>] *)

Module Std.

(** Modelled from the spec: [std::ratio], [std::ratio_multiply] and
    [std::ratio_divide] of the host's [<ratio>] header, which the sources
    include but do not contain.  The spec has a scale as a rational number
    with numerator and denominator in lowest terms and has the conversion
    ratio computed in lowest terms; the members [num] and [den] of
    [std::ratio<N, D>] are [sign(N) * sign(D) * abs(N) / gcd(N, D)] and
    [abs(D) / gcd(N, D)]. *)
Record ratio : Type := Ratio { num : Z; den : Z }.

Definition std_ratio (N D : Z) : ratio :=
  let g := Z.gcd N D in
  Ratio (Z.sgn N * Z.sgn D * Z.abs N / g) (Z.abs D / g).

Definition ratio_multiply (R1 R2 : ratio) : ratio :=
  std_ratio (num R1 * num R2) (den R1 * den R2).

Definition ratio_divide (R1 R2 : ratio) : ratio :=
  std_ratio (num R1 * den R2) (den R1 * num R2).

(** A ratio the compiler accepts: the denominator is not zero and both
    members are representable in [intmax_t]. *)
Definition ratio_ok (R : ratio) : bool :=
  (0 <? den R) && fits I64 (num R) && fits I64 (den R).

Definition ratio_eqb (R1 R2 : ratio) : bool :=
  (num R1 =? num R2) && (den R1 =? den R2).

(** [std::kilo], [std::milli], ... *)
Definition one : ratio := Ratio 1 1.
Definition kilo : ratio := Ratio 1000 1.
Definition mega : ratio := Ratio 1000000 1.
Definition milli : ratio := Ratio 1 1000.
Definition nano : ratio := Ratio 1 1000000000.

End Std.

Import Std.

(** ** namespace [su] *)

Module su.

(** *** Dimension tags

    [SU_UNIT(name, symbol)] and [SU_DURATION_UNIT(name, symbol)] declare a
    tag; [void] is the dimensionless marker. *)
Inductive Tag : Type :=
| void
| SU_UNIT (name symbol : string)
| SU_DURATION_UNIT (name symbol : string).

Definition Tag_eqb (a b : Tag) : bool :=
  match a, b with
  | void, void => true
  | SU_UNIT n s, SU_UNIT n' s' => String.eqb n n' && String.eqb s s'
  | SU_DURATION_UNIT n s, SU_DURATION_UNIT n' s' =>
      String.eqb n n' && String.eqb s s'
  | _, _ => false
  end.

(** [is_duration_type<Tag>]: true for the specialisations that
    [SU_DURATION_UNIT] adds, false in the primary template. *)
Definition is_duration_type (t : Tag) : bool :=
  match t with
  | SU_DURATION_UNIT _ _ => true
  | _ => false
  end.

(** [treat_as_floating_point<Rep>]. *)
Definition treat_as_floating_point (r : Rep) : bool :=
  match r with
  | Floating _ => true
  | Integral _ => false
  end.

(** *** namespace [su::detail] *)

Module detail.

Definition abs (a : Z) : Z := if a <? 0 then - a else a.

(* The guard keeps [gcd] executable on closed arguments. *)
#[local] Instance Zwf_wf : WellFounded (Zwf 0) :=
  Acc_intro_generator 32 (Zwf_well_founded 0).
#[local] Opaque Zwf_wf.

(** [a % b] is the remainder of the truncating division. *)
Equations? gcd (a b : Z) : Z by wf (Z.abs b) (Zwf 0) :=
  gcd a b with Z.eq_dec b 0 := {
    | left _ := abs a
    | right _ with Z.eq_dec a 0 := {
      | left _ := abs b
      | right _ := gcd b (Z.rem a b) } }.
Proof.
  split; [apply Z.abs_nonneg | apply Z.rem_bound_abs; assumption].
Qed.

#[local] Transparent Zwf_wf.

End detail.

(** *** namespace [su::ops]: the relation tables

    A table is the set of explicit specialisations of [ops::mul] and
    [ops::div] in the program, as keys with their [type] member.  The header
    itself specialises [mul<void, void>]; the partial specialisations
    [mul<T, void>], [mul<void, T>], [div<T, T>] and [div<T, void>] are
    consulted when no explicit specialisation matches. *)

Module ops.

Definition specs : Type := list (Tag * Tag * Tag).

Record table : Type := Table { mul_specs : specs; div_specs : specs }.

Definition header : table := Table [(void, void, void)] [].

Fixpoint find (l : specs) (T U : Tag) : option Tag :=
  match l with
  | [] => None
  | (T', U', r) :: l' =>
      if Tag_eqb T T' && Tag_eqb U U' then Some r else find l' T U
  end.

(** An explicit specialisation; a second one for the same arguments is a
    redefinition. *)
Definition specialise (l : specs) (T U r : Tag) : outcome specs :=
  match find l T U with
  | Some _ => IllFormed
  | None => Ok ((T, U, r) :: l)
  end.

(** What naming [ops::mul<T, U>::type] finds. *)
Inductive lookup : Type :=
| Type_ (r : Tag)
| NoType       (* the primary template: no member [type] *)
| Ambiguous.   (* two partial specialisations match, neither more specialised *)

Definition mul (tbl : table) (T U : Tag) : lookup :=
  match find (mul_specs tbl) T U with
  | Some r => Type_ r
  | None =>
      match T, U with
      | void, void => Ambiguous
      | _, void => Type_ T
      | void, _ => Type_ U
      | _, _ => NoType
      end
  end.

Definition div (tbl : table) (T U : Tag) : lookup :=
  match find (div_specs tbl) T U with
  | Some r => Type_ r
  | None =>
      match U with
      | void => match T with void => Ambiguous | _ => Type_ T end
      | _ => if Tag_eqb T U then Type_ void else NoType
      end
  end.

End ops.

Definition SU_MUL (lhs_1 lhs_2 rhs : Tag) (tbl : ops.table) : outcome ops.table :=
  d1 <- ops.specialise (ops.div_specs tbl) rhs lhs_1 lhs_2 ;;
  d2 <- ops.specialise d1 rhs lhs_2 lhs_1 ;;
  m1 <- ops.specialise (ops.mul_specs tbl) lhs_1 lhs_2 rhs ;;
  m2 <- ops.specialise m1 lhs_2 lhs_1 rhs ;;
  Ok (ops.Table m2 d2).

Definition SU_DIV (lhs_1 lhs_2 rhs : Tag) : ops.table -> outcome ops.table :=
  SU_MUL rhs lhs_2 lhs_1.

Definition SU_INV (lhs rhs : Tag) : ops.table -> outcome ops.table :=
  SU_MUL lhs rhs void.


(** *** [unit<Tag, Rep, Scale>]

    The template arguments of an instantiation, for a representation taken
    in [R]: [unit_type Rep] is any instantiation, [unit_type IntRep] one
    with an integral representation. *)
Record unit_type (R : Type) : Type :=
  UnitType { tag : Tag; rep : R; scale : ratio }.

Arguments UnitType {R} tag rep scale.
Arguments tag {R} u.
Arguments rep {R} u.
Arguments scale {R} u.

Definition unit_t : Type := unit_type IntRep.

Definition any_rep (T : unit_t) : unit_type Rep :=
  UnitType (tag T) (Integral (rep T)) (scale T).

(** A quantity: its type and the one stored number. *)
Record unit : Type := Unit { type_of : unit_t; m_val : Z }.

Definition count (u : unit) : tval := TV (rep (type_of u)) (m_val u).

Definition unit_t_eqb (T1 T2 : unit_t) : bool :=
  Tag_eqb (tag T1) (tag T2) && IntRep_eqb (rep T1) (rep T2)
  && ratio_eqb (scale T1) (scale T2).

(** The [requires] clause of [unit(const Rep2& v)]. *)
Definition raw_ctor_ok (Rep_ Rep2 : Rep) : bool :=
  treat_as_floating_point Rep_ || negb (treat_as_floating_point Rep2).

(** The [requires] clause of [unit(const unit<Tag, Rep2, Scale2>& u)]. *)
Definition converting_ctor_ok (Rep_ : Rep) (Scale : ratio)
    (Rep2 : Rep) (Scale2 : ratio) : bool :=
  treat_as_floating_point Rep_
  || ((den (ratio_divide Scale2 Scale) =? 1)
      && negb (treat_as_floating_point Rep2)).

(** The [requires] clause of
    [unit(const std::chrono::duration<Rep2, Scale2>& d)]. *)
Definition duration_ctor_ok (Tag_ : Tag) (Rep_ : Rep) (Scale : ratio)
    (Rep2 : Rep) (Scale2 : ratio) : bool :=
  is_duration_type Tag_
  && (treat_as_floating_point Rep_
      || ((den (ratio_divide Scale2 Scale) =? 1)
          && negb (treat_as_floating_point Rep2))).

(** [unit(const Rep2& v) : m_val(v)]. *)
Definition unit_of (T : unit_t) (v : tval) : outcome unit :=
  if raw_ctor_ok (Integral (rep T)) (Integral (ty v))
  then Ok (Unit T (val (cast (rep T) v)))
  else IllFormed.

(** [unit_cast<To>(u)]:
    [R = ratio_divide<To::scale, Scale>; common_type_t<To::rep, Rep> v = u.count();
     return To((v * R::den) / R::num);] *)
Definition unit_cast (To : unit_t) (u : unit) : outcome unit :=
  if negb (Tag_eqb (tag To) (tag (type_of u))) then IllFormed
  else
    let R := ratio_divide (scale To) (scale (type_of u)) in
    if negb (ratio_ok R) then IllFormed
    else
      let v := cast (common_type (rep To) (rep (type_of u))) (count u) in
      x <- c_mul v (TV I64 (den R)) ;;
      y <- c_div x (TV I64 (num R)) ;;
      unit_of To y.

(** Whether the instantiation [unit_cast<To>(const unit<Tag, Rep, Scale>&)]
    compiles, for any representations: the declared constraint is the
    sameness of the tags, and the body constructs a [To] from a number of
    the type of [(v * R::den) / R::num]. *)
Definition unit_cast_ok (To From : unit_type Rep) : bool :=
  Tag_eqb (tag To) (tag From)
  && ratio_ok (ratio_divide (scale To) (scale From))
  && raw_ctor_ok (rep To)
       (arith_rep (arith_rep (common_rep (rep To) (rep From)) (Integral I64))
          (Integral I64)).

(** [unit(const unit<Tag, Rep2, Scale2>& u) : m_val(unit_cast<unit>(u).count())]. *)
Definition unit_from_unit (T : unit_t) (u : unit) : outcome unit :=
  if negb (Tag_eqb (tag T) (tag (type_of u))) then IllFormed
  else if negb (converting_ctor_ok (Integral (rep T)) (scale T)
                  (Integral (rep (type_of u))) (scale (type_of u)))
  then IllFormed
  else x <- unit_cast T u ;; Ok (Unit T (val (cast (rep T) (count x)))).

(** *** [std::common_type] of two instantiations *)

Section CommonType.

Context {R : Type} (R_eqb : R -> R -> bool) (common : R -> R -> R).

Definition std_common_type (T1 T2 : unit_type R) : outcome (unit_type R) :=
  if negb (Tag_eqb (tag T1) (tag T2)) then IllFormed
  else if R_eqb (rep T1) (rep T2) && ratio_eqb (scale T1) (scale T2)
  then Ok T1
  else
    let N := detail.gcd (num (scale T1)) (num (scale T2)) in
    let D := (den (scale T1) ÷ detail.gcd (den (scale T1)) (den (scale T2)))
             * den (scale T2) in
    if fits I64 D && ratio_ok (std_ratio N D)
    then Ok (UnitType (tag T1) (common (rep T1) (rep T2)) (std_ratio N D))
    else IllFormed.

End CommonType.

Definition FloatRep_eqb (f g : FloatRep) : bool :=
  match f, g with
  | F32, F32 | F64, F64 | F80, F80 => true
  | _, _ => false
  end.

Definition Rep_eqb (a b : Rep) : bool :=
  match a, b with
  | Integral i, Integral j => IntRep_eqb i j
  | Floating f, Floating g => FloatRep_eqb f g
  | _, _ => false
  end.

(** The common type of two instantiations with integral representations,
    and of any two instantiations. *)
Definition common_unit_t : unit_t -> unit_t -> outcome unit_t :=
  std_common_type IntRep_eqb common_type.

Definition common_unit_type : unit_type Rep -> unit_type Rep -> outcome (unit_type Rep) :=
  std_common_type Rep_eqb common_rep.

(** *** Operators on two quantities of one dimension *)

(** [operator+]: [T(unit_cast<T>(a).count() + unit_cast<T>(b).count())]. *)
Definition op_add (a b : unit) : outcome unit :=
  T <- common_unit_t (type_of a) (type_of b) ;;
  x <- unit_cast T a ;;
  y <- unit_cast T b ;;
  s <- c_add (count x) (count y) ;;
  unit_of T s.

(** [operator-]. *)
Definition op_sub (a b : unit) : outcome unit :=
  T <- common_unit_t (type_of a) (type_of b) ;;
  x <- unit_cast T a ;;
  y <- unit_cast T b ;;
  s <- c_sub (count x) (count y) ;;
  unit_of T s.

(** [operator==]: the counts of both sides after [unit_cast] to the common
    type; both have the common representation. *)
Definition op_eq (a b : unit) : outcome bool :=
  T <- common_unit_t (type_of a) (type_of b) ;;
  x <- unit_cast T a ;;
  y <- unit_cast T b ;;
  Ok (m_val x =? m_val y).

(** [operator<=>]: [Lt], [Eq], [Gt] stand for [std::strong_ordering::less],
    [equal] and [greater]. *)
Definition op_cmp (a b : unit) : outcome comparison :=
  T <- common_unit_t (type_of a) (type_of b) ;;
  x <- unit_cast T a ;;
  y <- unit_cast T b ;;
  Ok (m_val x ?= m_val y).

(** *** Dimension-changing operators *)

(** What [operator*] and [operator/] on two quantities return: a plain
    number when the relation yields [void], a quantity otherwise. *)
Inductive result : Type :=
| Plain (n : tval)
| Quantity (u : unit).

(** [operator*(unit, unit)]. *)
Definition op_mul (tbl : ops.table) (a b : unit) : outcome result :=
  match ops.mul tbl (tag (type_of a)) (tag (type_of b)) with
  | ops.Type_ r =>
      let CT := common_type (rep (type_of a)) (rep (type_of b)) in
      let S := ratio_multiply (scale (type_of a)) (scale (type_of b)) in
      if negb (ratio_ok S) then IllFormed
      else
        p <- c_mul (count a) (count b) ;;
        let v := cast CT p in
        match r with
        | void =>
            x <- c_mul v (TV I64 (num S)) ;;
            y <- c_div x (TV I64 (den S)) ;;
            Ok (Plain (cast CT y))
        | _ => u <- unit_of (UnitType r CT S) v ;; Ok (Quantity u)
        end
  | _ => IllFormed
  end.

(** [operator/(unit, unit)]: in the [void] branch the cast to the common
    representation is applied to the numerator
    [S::num * a.count()], which is then divided by [S::den * b.count()]. *)
Definition op_div (tbl : ops.table) (a b : unit) : outcome result :=
  match ops.div tbl (tag (type_of a)) (tag (type_of b)) with
  | ops.Type_ r =>
      let CT := common_type (rep (type_of a)) (rep (type_of b)) in
      let S := ratio_divide (scale (type_of a)) (scale (type_of b)) in
      if negb (ratio_ok S) then IllFormed
      else
        match r with
        | void =>
            n <- c_mul (TV I64 (num S)) (count a) ;;
            d <- c_mul (TV I64 (den S)) (count b) ;;
            q <- c_div (cast CT n) d ;;
            Ok (Plain q)
        | _ =>
            q <- c_div (count a) (count b) ;;
            u <- unit_of (UnitType r CT S) (cast CT q) ;;
            Ok (Quantity u)
        end
  | _ => IllFormed
  end.

(** *** Compound assignment

    The bodies are one statement, [m_val op= operand;], and have no
    [return].  A body ends with the object as the statement leaves it and
    with the value of the [return] statement that was reached, if any. *)
Record body_end : Type := BodyEnd { this_after : unit; returned : option unit }.

(** [m_val op= x]: [m_val = static_cast<Rep>(m_val op x)]. *)
Definition compound_body (op : tval -> tval -> outcome tval)
    (this : unit) (x : tval) : outcome body_end :=
  r <- op (count this) x ;;
  Ok (BodyEnd (Unit (type_of this) (val (cast (rep (type_of this)) r))) None).

(** A call of a function declared to return [unit&]: the object and the
    referenced quantity; flowing off the end of the body is undefined. *)
Definition call_returning_ref (b : outcome body_end) : outcome (unit * unit) :=
  e <- b ;;
  match returned e with
  | Some r => Ok (this_after e, r)
  | None => Undefined
  end.

(** The argument of a [const unit&] parameter: a quantity of the same
    type binds directly, another one goes through the converting
    constructor. *)
Definition as_unit_arg (T : unit_t) (u : unit) : outcome unit :=
  if unit_t_eqb T (type_of u) then Ok u else unit_from_unit T u.

(** The argument of a [const Rep&] parameter. *)
Definition as_rep_arg (T : unit_t) (v : tval) : tval := cast (rep T) v.

Definition op_add_assign (this u : unit) : outcome (unit * unit) :=
  u' <- as_unit_arg (type_of this) u ;;
  call_returning_ref (compound_body c_add this (count u')).

Definition op_sub_assign (this u : unit) : outcome (unit * unit) :=
  u' <- as_unit_arg (type_of this) u ;;
  call_returning_ref (compound_body c_sub this (count u')).

Definition op_mul_assign (this : unit) (v : tval) : outcome (unit * unit) :=
  call_returning_ref (compound_body c_mul this (as_rep_arg (type_of this) v)).

Definition op_div_assign (this : unit) (v : tval) : outcome (unit * unit) :=
  call_returning_ref (compound_body c_div this (as_rep_arg (type_of this) v)).

Definition op_rem_assign (this u : unit) : outcome (unit * unit) :=
  u' <- as_unit_arg (type_of this) u ;;
  call_returning_ref (compound_body c_rem this (count u')).

Definition op_rem_assign_rep (this : unit) (v : tval) : outcome (unit * unit) :=
  call_returning_ref (compound_body c_rem this (as_rep_arg (type_of this) v)).

(** *** The other members, and the operators with a scalar *)

(** [zero()], [min()] and [max()]: [unit(0)],
    [unit(std::numeric_limits<Rep>::min())] and
    [unit(std::numeric_limits<Rep>::max())]. *)
Definition zero (T : unit_t) : outcome unit := unit_of T (TV I32 0).

Definition min (T : unit_t) : outcome unit :=
  unit_of T (TV (rep T) (min_of (rep T))).

Definition max (T : unit_t) : outcome unit :=
  unit_of T (TV (rep T) (max_of (rep T))).

(** Unary [operator+]: [*this]; unary [operator-]: [unit(-m_val)]. *)
Definition op_pos (u : unit) : outcome unit := Ok u.

Definition op_neg (u : unit) : outcome unit :=
  n <- c_neg (count u) ;; unit_of (type_of u) n.

(** [value<Rep2>()]: [unit_cast<unit<Tag, Rep2>>( *this).count()], the
    scale of the target being [std::ratio<1>]. *)
Definition value (Rep2 : IntRep) (u : unit) : outcome tval :=
  x <- unit_cast (UnitType (tag (type_of u)) Rep2 one) u ;; Ok (count x).

(** [quantity<Rep, Scale>] is [unit<void, Rep, Scale>]; the three constants
    all have the scale [std::nano]. *)
Definition quantity (Rep_ : IntRep) (Scale : ratio) : unit_t :=
  UnitType void Rep_ Scale.

Definition as_nano : outcome unit := unit_of (quantity I64 nano) (TV I32 1000000000).
Definition as_micro : outcome unit := unit_of (quantity I64 nano) (TV I32 1000000).
Definition as_milli : outcome unit := unit_of (quantity I64 nano) (TV I32 1000).

(** [operator*(unit, T)]: [common_type_t<Rep, T> v = a.count() * b;
    return unit<Tag, decltype(v), Scale>(v);] *)
Definition op_mul_scalar (a : unit) (b : tval) : outcome unit :=
  let CT := common_type (rep (type_of a)) (ty b) in
  p <- c_mul (count a) b ;;
  unit_of (UnitType (tag (type_of a)) CT (scale (type_of a))) (cast CT p).

(** [operator*(T, unit)]: [b * a]. *)
Definition op_scalar_mul (a : tval) (b : unit) : outcome unit :=
  op_mul_scalar b a.

(** [operator/(unit, T)]. *)
Definition op_div_scalar (a : unit) (b : tval) : outcome unit :=
  let CT := common_type (rep (type_of a)) (ty b) in
  p <- c_div (count a) b ;;
  unit_of (UnitType (tag (type_of a)) CT (scale (type_of a))) (cast CT p).

(** [operator%(unit, T)]. *)
Definition op_rem_scalar (a : unit) (b : tval) : outcome unit :=
  let CT := common_type (rep (type_of a)) (ty b) in
  p <- c_rem (count a) b ;;
  unit_of (UnitType (tag (type_of a)) CT (scale (type_of a))) (cast CT p).


(** *** The duration bridge *)

Module chrono.

(** Modelled from the spec: [std::chrono::duration] and
    [std::chrono::duration_cast] of the host's [<chrono>] header, the
    standard fixed-tick-rate duration type the spec names as an external
    collaborator.  A duration holds a tick count of its representation for
    a positive tick period; [duration_cast] converts with the ratio
    [CF = Period / ToPeriod] in the type
    [CR = common_type<ToRep, Rep, intmax_t>], multiplying by [CF::num] and
    dividing by [CF::den], each step left out when the member is 1. *)
Record duration : Type := Duration { d_rep : IntRep; period : ratio; ticks : Z }.

Definition period_ok (P : ratio) : bool := ratio_ok P && (0 <? num P).

Definition duration_cast (ToRep : IntRep) (ToPeriod : ratio) (d : duration)
  : outcome duration :=
  let CF := ratio_divide (period d) ToPeriod in
  let CR := common_type (common_type ToRep (d_rep d)) I64 in
  if negb (period_ok ToPeriod && ratio_ok CF) then IllFormed
  else
    let c := cast CR (TV (d_rep d) (ticks d)) in
    r <- (if (num CF =? 1) && (den CF =? 1) then Ok (TV (d_rep d) (ticks d))
          else if den CF =? 1 then c_mul c (cast CR (TV I64 (num CF)))
          else if num CF =? 1 then c_div c (cast CR (TV I64 (den CF)))
          else x <- c_mul c (cast CR (TV I64 (num CF))) ;;
               c_div x (cast CR (TV I64 (den CF)))) ;;
    Ok (Duration ToRep ToPeriod (val (cast ToRep r))).

End chrono.

(** [operator std::chrono::duration<Rep2, Scale2>() const]:
    [duration<Rep2, Scale2>(unit_cast<unit<Tag, Rep2, Scale2>>( *this).count())]. *)
Definition to_duration (Rep2 : IntRep) (Scale2 : ratio) (u : unit)
  : outcome chrono.duration :=
  if negb (is_duration_type (tag (type_of u)) && chrono.period_ok Scale2)
  then IllFormed
  else
    x <- unit_cast (UnitType (tag (type_of u)) Rep2 Scale2) u ;;
    Ok (chrono.Duration Rep2 Scale2 (val (cast Rep2 (count x)))).

(** [unit(const std::chrono::duration<Rep2, Scale2>& d) :
     m_val(duration_cast<duration<Rep, Scale>>(d).count())]. *)
Definition unit_from_duration (T : unit_t) (d : chrono.duration) : outcome unit :=
  if negb (duration_ctor_ok (tag T) (Integral (rep T)) (scale T)
             (Integral (chrono.d_rep d)) (chrono.period d))
  then IllFormed
  else
    x <- chrono.duration_cast (rep T) (scale T) d ;;
    Ok (Unit T (val (cast (rep T) (TV (chrono.d_rep x) (chrono.ticks x))))).

End su.

(** ** The declarations of [example.cpp] and [test.cpp] *)

Module example.

Definition second_t : su.Tag := su.SU_DURATION_UNIT "second_t" "s".
Definition hz_t : su.Tag := su.SU_UNIT "hz_t" "Hz".
Definition joule_t : su.Tag := su.SU_UNIT "joule_t" "J".
Definition watt_t : su.Tag := su.SU_UNIT "watt_t" "W".

(** [SU_INV(second_t, hz_t)] then [SU_MUL(second_t, watt_t, joule_t)]. *)
Definition relations : outcome su.ops.table :=
  t <- su.SU_INV second_t hz_t su.ops.header ;;
  su.SU_MUL second_t watt_t joule_t t.

(** [using watt = su::unit<watt_t, int64_t>;] and the like; [watt(500)] is
    [su.Unit watt 500]. *)
Definition second : su.unit_t := su.UnitType second_t I64 one.
Definition kilosecond : su.unit_t := su.UnitType second_t I64 kilo.
Definition hz : su.unit_t := su.UnitType hz_t I64 one.
Definition millihz : su.unit_t := su.UnitType hz_t I64 milli.
Definition watt : su.unit_t := su.UnitType watt_t I64 one.
Definition kilowatt : su.unit_t := su.UnitType watt_t I64 kilo.
Definition joule : su.unit_t := su.UnitType joule_t I64 one.

End example.


(** * Properties *)

Import su.

(** ** Fixed-width arithmetic *)

Ltac ranges :=
  unfold in_range, fits, min_of, max_of in *; simpl in *.

Section Arithmetic.

Lemma fits_in_range t z : fits t z = true <-> in_range t z.
Proof.
  unfold fits, in_range.
  rewrite andb_true_iff, !Z.leb_le. tauto.
Qed.

Lemma min_max_of t : min_of t <= 0 < max_of t.
Proof. destruct t; ranges; lia. Qed.

Lemma convert_id t z : in_range t z -> convert t z = z.
Proof.
  intros H. unfold convert.
  destruct t; ranges; rewrite Z.mod_small by lia; lia.
Qed.

Lemma convert_in_range t z : in_range t (convert t z).
Proof.
  unfold convert.
  destruct t; ranges;
    match goal with
    | |- context [?a mod ?m] =>
        pose proof (Z.mod_pos_bound a m ltac:(lia))
    end; lia.
Qed.

Lemma arith_result_exact W z :
  in_range W z -> arith_result W z = Ok (TV W z).
Proof.
  intros H. unfold arith_result.
  destruct (is_signed W).
  - apply fits_in_range in H. rewrite H. reflexivity.
  - rewrite convert_id by assumption. reflexivity.
Qed.

(** Truncating division by a positive number stays in the range. *)
Lemma quot_in_range W a b :
  in_range W a -> 0 < b -> in_range W (a ÷ b).
Proof.
  intros Ha Hb. pose proof (min_max_of W) as HW.
  unfold in_range in *.
  destruct (Z.le_gt_cases 0 a) as [Hpos | Hneg].
  - pose proof (Z.quot_pos a b Hpos Hb).
    pose proof (Z.quot_le_upper_bound a b a Hb ltac:(nia)). lia.
  - pose proof (Z.quot_opp_l a b ltac:(lia)) as Hq.
    pose proof (Z.quot_pos (- a) b ltac:(lia) Hb).
    pose proof (Z.quot_le_upper_bound (- a) b (- a) Hb ltac:(nia)). lia.
Qed.

(** A factor of an in-range product by a positive number is in range. *)
Lemma factor_in_range W c k :
  0 < k -> in_range W (c * k) -> in_range W c.
Proof.
  intros Hk H. pose proof (min_max_of W). unfold in_range in *. nia.
Qed.

Lemma c_mul_exact x y :
  let W := arith (ty x) (ty y) in
  in_range W (val x) -> in_range W (val y) -> in_range W (val x * val y) ->
  c_mul x y = Ok (TV W (val x * val y)).
Proof.
  intros W Hx Hy Hxy. unfold c_mul. fold W.
  rewrite !convert_id by assumption. apply arith_result_exact, Hxy.
Qed.

Lemma c_add_exact x y :
  let W := arith (ty x) (ty y) in
  in_range W (val x) -> in_range W (val y) -> in_range W (val x + val y) ->
  c_add x y = Ok (TV W (val x + val y)).
Proof.
  intros W Hx Hy Hxy. unfold c_add. fold W.
  rewrite !convert_id by assumption. apply arith_result_exact, Hxy.
Qed.

Lemma c_div_exact x y :
  let W := arith (ty x) (ty y) in
  in_range W (val x) -> in_range W (val y) -> val y <> 0 ->
  in_range W (val x ÷ val y) ->
  c_div x y = Ok (TV W (val x ÷ val y)).
Proof.
  intros W Hx Hy Hnz Hq. unfold c_div. fold W.
  rewrite !convert_id by assumption.
  destruct (Z.eqb_spec (val y) 0) as [E | _]; [contradiction |].
  apply arith_result_exact, Hq.
Qed.

(** How the ranges of the types involved in a conversion are nested. *)
Lemma arith_intmax_idem t : arith (arith t I64) I64 = arith t I64.
Proof. destruct t; reflexivity. Qed.

Lemma in_range_arith_intmax t z :
  in_range t z -> in_range (arith t I64) z.
Proof. destruct t; ranges; lia. Qed.

Lemma intmax_pos_in_range t z :
  0 <= z -> in_range I64 z -> in_range (arith t I64) z.
Proof. destruct t; ranges; lia. Qed.

Lemma in_range_common_arith a b z :
  in_range (common_type a b) z -> in_range (arith a b) z.
Proof. destruct a, b; ranges; lia. Qed.

Lemma in_range_promote t z : in_range t z -> in_range (arith t t) z.
Proof. destruct t; ranges; lia. Qed.

Lemma in_range_both_common a b z :
  in_range a z -> in_range b z -> in_range (common_type a b) z.
Proof. destruct a, b; ranges; lia. Qed.

Lemma common_type_absorb_l a b :
  common_type (common_type a b) a = common_type a b.
Proof. destruct a, b; reflexivity. Qed.

Lemma common_type_absorb_r a b :
  common_type (common_type a b) b = common_type a b.
Proof. destruct a, b; reflexivity. Qed.

Lemma common_type_idem a : common_type a a = a.
Proof. destruct a; reflexivity. Qed.

Lemma IntRep_eqb_eq a b : IntRep_eqb a b = true <-> a = b.
Proof. destruct a, b; simpl; split; congruence. Qed.

End Arithmetic.

(** ** Ratios *)

(** The spec's scale: a positive rational number, and one in lowest terms. *)
Definition positive (S : ratio) : Prop := 0 < num S /\ 0 < den S.

Definition lowest_terms (S : ratio) : Prop :=
  positive S /\ Z.gcd (num S) (den S) = 1.

Section Ratios.

Lemma gcd_spec a b : detail.gcd a b = Z.gcd a b.
Proof.
  funelim (detail.gcd a b).
  - subst. rewrite Z.gcd_0_r. unfold detail.abs.
    destruct (Z.ltb_spec a 0); lia.
  - subst. rewrite Z.gcd_0_l. unfold detail.abs.
    destruct (Z.ltb_spec b 0); lia.
  - match goal with IH : detail.gcd _ _ = Z.gcd _ _ |- _ => rewrite IH end.
    rewrite <- (Z.gcd_add_mult_diag_r b (Z.rem a b) (a ÷ b)).
    replace (Z.rem a b + a ÷ b * b) with a
      by (pose proof (Z.quot_rem' a b); lia).
    apply Z.gcd_comm.
Qed.

(** [std::ratio<N, D>] for positive arguments: [N / D] in lowest terms. *)
Lemma std_ratio_pos N D :
  0 < N -> 0 < D ->
  let r := std_ratio N D in
  lowest_terms r /\ num r * D = N * den r
  /\ num r = N / Z.gcd N D /\ den r = D / Z.gcd N D.
Proof.
  intros HN HD r.
  assert (Hg : 0 < Z.gcd N D).
  { pose proof (Z.gcd_nonneg N D).
    assert (Z.gcd N D <> 0) by (intros E; apply Z.gcd_eq_0_l in E; lia). lia. }
  assert (En : num r = N / Z.gcd N D).
  { unfold r, std_ratio; simpl.
    rewrite (Z.sgn_pos N), (Z.sgn_pos D), (Z.abs_eq N) by lia.
    f_equal; lia. }
  assert (Ed : den r = D / Z.gcd N D).
  { unfold r, std_ratio; simpl. rewrite (Z.abs_eq D) by lia. reflexivity. }
  destruct (Z.gcd_divide_l N D) as [n Hn].
  destruct (Z.gcd_divide_r N D) as [d Hd].
  assert (En' : N / Z.gcd N D = n)
    by (rewrite Hn at 1; apply Z.div_mul; lia).
  assert (Ed' : D / Z.gcd N D = d)
    by (rewrite Hd at 1; apply Z.div_mul; lia).
  repeat split; try assumption.
  - rewrite En, En'. nia.
  - rewrite Ed, Ed'. nia.
  - rewrite En, Ed. apply Z.gcd_div_gcd; lia.
  - rewrite En, Ed, En', Ed'. nia.
Qed.

(** A ratio whose denominator divides its numerator is an integer. *)
Lemma std_ratio_divides N D :
  0 < N -> 0 < D -> (D | N) -> std_ratio N D = Ratio (N / D) 1.
Proof.
  intros HN HD Hdiv.
  assert (Hg : Z.gcd N D = D).
  { rewrite Z.gcd_comm. apply Z.divide_gcd_iff; [lia | assumption]. }
  unfold std_ratio. rewrite Hg.
  rewrite (Z.sgn_pos N), (Z.sgn_pos D), (Z.abs_eq N), (Z.abs_eq D) by lia.
  rewrite Z.div_same by lia. f_equal. f_equal. lia.
Qed.

Lemma std_ratio_den_one N D :
  0 < N -> 0 < D -> (den (std_ratio N D) = 1 <-> (D | N)).
Proof.
  intros HN HD. split.
  - intros H1.
    destruct (std_ratio_pos N D HN HD) as (_ & Hx & _ & _).
    rewrite H1 in Hx. exists (num (std_ratio N D)). lia.
  - intros Hdiv. rewrite std_ratio_divides by assumption. reflexivity.
Qed.

(** Dividing the other way round swaps the members. *)
Lemma ratio_divide_swap S1 S2 :
  positive S1 -> positive S2 ->
  num (ratio_divide S1 S2) = den (ratio_divide S2 S1)
  /\ den (ratio_divide S1 S2) = num (ratio_divide S2 S1).
Proof.
  intros [Hn1 Hd1] [Hn2 Hd2].
  assert (0 < num S1 * den S2) by nia.
  assert (0 < den S1 * num S2) by nia.
  assert (0 < num S2 * den S1) by nia.
  assert (0 < den S2 * num S1) by nia.
  destruct (std_ratio_pos (num S1 * den S2) (den S1 * num S2))
    as (_ & _ & E1 & E2); try assumption.
  destruct (std_ratio_pos (num S2 * den S1) (den S2 * num S1))
    as (_ & _ & E3 & E4); try assumption.
  unfold ratio_divide. rewrite E1, E2, E3, E4.
  rewrite (Z.gcd_comm (num S2 * den S1)).
  rewrite (Z.mul_comm (den S2) (num S1)), (Z.mul_comm (num S2) (den S1)).
  split; reflexivity.
Qed.

Lemma ratio_divide_pos S1 S2 :
  positive S1 -> positive S2 ->
  let Q := ratio_divide S1 S2 in
  lowest_terms Q /\ num Q * (den S1 * num S2) = den Q * (num S1 * den S2).
Proof.
  intros [Hn1 Hd1] [Hn2 Hd2] Q.
  destruct (std_ratio_pos (num S1 * den S2) (den S1 * num S2))
    as (Hl & Hx & _); [nia | nia |].
  split; [exact Hl |]. fold (ratio_divide S1 S2) in Hx. fold Q in Hx. lia.
Qed.

Lemma ratio_multiply_pos S1 S2 :
  positive S1 -> positive S2 ->
  let P := ratio_multiply S1 S2 in
  lowest_terms P /\ num P * (den S1 * den S2) = den P * (num S1 * num S2).
Proof.
  intros [Hn1 Hd1] [Hn2 Hd2] P.
  destruct (std_ratio_pos (num S1 * num S2) (den S1 * den S2))
    as (Hl & Hx & _); [nia | nia |].
  split; [exact Hl |]. fold (ratio_multiply S1 S2) in Hx. fold P in Hx. lia.
Qed.

Lemma ratio_ok_swap S1 S2 :
  positive S1 -> positive S2 ->
  ratio_ok (ratio_divide S1 S2) = ratio_ok (ratio_divide S2 S1).
Proof.
  intros H1 H2.
  destruct (ratio_divide_swap S1 S2 H1 H2) as [En Ed].
  destruct (ratio_divide_pos S1 S2 H1 H2) as [[[Hn Hd] _] _].
  destruct (ratio_divide_pos S2 S1 H2 H1) as [[[Hn' Hd'] _] _].
  unfold ratio_ok. rewrite En, Ed.
  apply Z.ltb_lt in Hn', Hd'. rewrite Hn', Hd'. simpl.
  apply andb_comm.
Qed.

Lemma ratio_eqb_eq S1 S2 : ratio_eqb S1 S2 = true <-> S1 = S2.
Proof.
  unfold ratio_eqb. rewrite andb_true_iff, !Z.eqb_eq.
  destruct S1, S2; simpl. split; [intros [-> ->]; reflexivity |].
  intros E; injection E; auto.
Qed.

Lemma Tag_eqb_eq a b : Tag_eqb a b = true <-> a = b.
Proof.
  destruct a, b; simpl; try (split; congruence);
    rewrite andb_true_iff, !String.eqb_eq;
    (split; [intros [-> ->]; reflexivity | intros E; injection E; auto]).
Qed.

Lemma Tag_eqb_refl a : Tag_eqb a a = true.
Proof. apply Tag_eqb_eq. reflexivity. Qed.

End Ratios.

(** ** The conversion engine *)

Section Conversion.

Lemma ratio_ok_fits Q :
  ratio_ok Q = true -> 0 < den Q /\ in_range I64 (num Q) /\ in_range I64 (den Q).
Proof.
  unfold ratio_ok. rewrite !andb_true_iff, Z.ltb_lt, !fits_in_range. tauto.
Qed.

(** [unit_cast] when no intermediate result leaves its type: the count,
    converted to the common representation, times [num Q], divided by
    [den Q], where [Q] is source scale over target scale. *)
Lemma unit_cast_exact (To : unit_t) (u : unit) :
  tag To = tag (type_of u) ->
  positive (scale To) -> positive (scale (type_of u)) ->
  let Q := ratio_divide (scale (type_of u)) (scale To) in
  let CT := common_type (rep To) (rep (type_of u)) in
  let v := convert CT (m_val u) in
  ratio_ok Q = true ->
  in_range (arith CT I64) (v * num Q) ->
  unit_cast To u = Ok (Unit To (convert (rep To) (v * num Q ÷ den Q))).
Proof.
  intros Htag HTo Hu Q CT v Hok Hprod.
  destruct (ratio_divide_swap (scale To) (scale (type_of u)) HTo Hu) as [En Ed].
  destruct (ratio_divide_pos (scale (type_of u)) (scale To) Hu HTo)
    as [[[Hn Hd] _] _].
  destruct (ratio_ok_fits Q Hok) as (_ & Hfn & Hfd).
  fold Q in En, Ed, Hn, Hd.
  unfold unit_cast.
  rewrite Htag, Tag_eqb_refl, (ratio_ok_swap _ _ HTo Hu).
  fold Q. rewrite Hok, En, Ed. cbn [negb].
  assert (Hv : in_range (arith CT I64) v)
    by apply in_range_arith_intmax, convert_in_range.
  assert (Hnum : in_range (arith CT I64) (num Q))
    by (apply intmax_pos_in_range; [lia | assumption]).
  assert (Hden : in_range (arith CT I64) (den Q))
    by (apply intmax_pos_in_range; [lia | assumption]).
  rewrite c_mul_exact; cbn [ty val cast count]; fold CT; fold v;
    try assumption.
  cbn [bind].
  rewrite c_div_exact; cbn [ty val]; rewrite ?arith_intmax_idem;
    try assumption; try lia.
  - reflexivity.
  - apply quot_in_range; assumption.
Qed.

End Conversion.




(** ** The common type *)

(** The scale the spec gives the common type, and an operand scale divided
    by another scale, as the numerator of the quotient. *)
Definition common_scale (S1 S2 : ratio) : ratio :=
  Ratio (Z.gcd (num S1) (num S2)) (Z.lcm (den S1) (den S2)).

Definition factor (S CS : ratio) : Z := num (ratio_divide S CS).

(** A scale as [std::ratio] presents it: positive, in lowest terms, its
    members in [intmax_t]. *)
Definition proper (S : ratio) : Prop := lowest_terms S /\ ratio_ok S = true.

(** The physical value of a quantity: count times scale. *)
Definition physical (u : unit) : Q :=
  inject_Z (m_val u) * (num (scale (type_of u)) # Z.to_pos (den (scale (type_of u)))).

Section CommonTypeFacts.

Lemma std_ratio_reduced N D :
  0 < N -> 0 < D -> Z.gcd N D = 1 -> std_ratio N D = Ratio N D.
Proof.
  intros HN HD Hg. unfold std_ratio. rewrite Hg.
  rewrite (Z.sgn_pos N), (Z.sgn_pos D), (Z.abs_eq N), (Z.abs_eq D) by lia.
  rewrite !Z.div_1_r. f_equal. lia.
Qed.

Lemma coprime_divisor h N D :
  0 <= h -> (h | N) -> Z.gcd N D = 1 -> Z.gcd h D = 1.
Proof.
  intros Hh HN Hg.
  apply Z.divide_1_r_nonneg; [apply Z.gcd_nonneg |].
  rewrite <- Hg. apply Z.gcd_greatest.
  - eapply Z.divide_trans; [apply Z.gcd_divide_l | exact HN].
  - apply Z.gcd_divide_r.
Qed.

Lemma common_scale_coprime S1 S2 :
  lowest_terms S1 -> lowest_terms S2 ->
  Z.gcd (Z.gcd (num S1) (num S2)) (Z.lcm (den S1) (den S2)) = 1.
Proof.
  intros [_ H1] [_ H2].
  set (h := Z.gcd (Z.gcd (num S1) (num S2)) (Z.lcm (den S1) (den S2))).
  assert (Hh : 0 <= h) by apply Z.gcd_nonneg.
  assert (Hg : (h | Z.gcd (num S1) (num S2))) by apply Z.gcd_divide_l.
  assert (HN1 : (h | num S1))
    by (eapply Z.divide_trans; [exact Hg | apply Z.gcd_divide_l]).
  assert (HN2 : (h | num S2))
    by (eapply Z.divide_trans; [exact Hg | apply Z.gcd_divide_r]).
  assert (HL : (h | den S1 * den S2)).
  { eapply Z.divide_trans; [apply Z.gcd_divide_r |].
    apply Z.lcm_least; [apply Z.divide_factor_l | apply Z.divide_factor_r]. }
  assert (HD2 : (h | den S2)).
  { apply (Z.gauss h (den S1)); [exact HL |].
    apply (coprime_divisor h (num S1)); assumption. }
  apply Z.divide_1_r_nonneg; [exact Hh |].
  rewrite <- H2. apply Z.gcd_greatest; assumption.
Qed.

(** The denominator the code computes, [(D1 / gcd(D1, D2)) * D2], is the
    least common multiple. *)
Lemma denominator_lcm D1 D2 :
  0 < D1 -> 0 < D2 -> D1 ÷ Z.gcd D1 D2 * D2 = Z.lcm D1 D2.
Proof.
  intros H1 H2.
  assert (Hg : 0 < Z.gcd D1 D2).
  { pose proof (Z.gcd_nonneg D1 D2).
    assert (Z.gcd D1 D2 <> 0) by (intros E; apply Z.gcd_eq_0_l in E; lia). lia. }
  destruct (Z.gcd_divide_l D1 D2) as [d1 E1].
  destruct (Z.gcd_divide_r D1 D2) as [d2 E2].
  rewrite Z.quot_div_nonneg by lia.
  unfold Z.lcm.
  assert (Q1 : D1 / Z.gcd D1 D2 = d1) by (rewrite E1 at 1; apply Z.div_mul; lia).
  assert (Q2 : D2 / Z.gcd D1 D2 = d2) by (rewrite E2 at 1; apply Z.div_mul; lia).
  rewrite Q1, Q2. rewrite Z.abs_eq by nia. nia.
Qed.

Lemma common_scale_positive S1 S2 :
  positive S1 -> positive S2 -> positive (common_scale S1 S2).
Proof.
  intros [Hn1 Hd1] [Hn2 Hd2]. split; simpl.
  - pose proof (Z.gcd_nonneg (num S1) (num S2)).
    assert (Z.gcd (num S1) (num S2) <> 0)
      by (intros E; apply Z.gcd_eq_0_l in E; lia). lia.
  - pose proof (Z.lcm_nonneg (den S1) (den S2)).
    assert (Z.lcm (den S1) (den S2) <> 0)
      by (intros E; apply Z.lcm_eq_0 in E; lia). lia.
Qed.

(** An operand scale is a whole multiple of the common scale. *)
Lemma factor_l S1 S2 :
  positive S1 -> positive S2 ->
  let CS := common_scale S1 S2 in
  let k := factor S1 CS in
  0 < k /\ ratio_divide S1 CS = Ratio k 1
  /\ num S1 * den CS = k * (num CS * den S1).
Proof.
  intros P1 P2 CS k.
  pose proof (common_scale_positive S1 S2 P1 P2) as [Hg HL].
  destruct P1 as [Hn1 Hd1]. fold CS in Hg, HL.
  assert (Hdiv : (den S1 * num CS | num S1 * den CS)).
  { destruct (Z.gcd_divide_l (num S1) (num S2)) as [n En].
    destruct (Z.divide_lcm_l (den S1) (den S2)) as [l El].
    exists (n * l). simpl. rewrite En at 1. rewrite El at 1. ring. }
  assert (E : ratio_divide S1 CS
              = Ratio (num S1 * den CS / (den S1 * num CS)) 1)
    by (apply std_ratio_divides; [nia | nia | exact Hdiv]).
  assert (Ek : k = num S1 * den CS / (den S1 * num CS))
    by (unfold k, factor; rewrite E; reflexivity).
  destruct Hdiv as [q Hq].
  assert (Eq' : num S1 * den CS / (den S1 * num CS) = q)
    by (rewrite Hq; apply Z.div_mul; nia).
  rewrite Eq' in Ek, E. subst q.
  repeat split; [nia | exact E | lia].
Qed.

Lemma common_scale_comm S1 S2 : common_scale S1 S2 = common_scale S2 S1.
Proof. unfold common_scale. rewrite Z.gcd_comm, Z.lcm_comm. reflexivity. Qed.

Lemma factor_r S1 S2 :
  positive S1 -> positive S2 ->
  let CS := common_scale S1 S2 in
  let k := factor S2 CS in
  0 < k /\ ratio_divide S2 CS = Ratio k 1
  /\ num S2 * den CS = k * (num CS * den S2).
Proof.
  intros P1 P2. rewrite common_scale_comm. apply factor_l; assumption.
Qed.

Context {R : Type} (R_eqb : R -> R -> bool) (common : R -> R -> R).
Hypothesis R_eqb_eq : forall a b, R_eqb a b = true -> a = b.
Hypothesis common_idem : forall a, common a a = a.

(** What [std::common_type] deduces. *)
Lemma std_common_type_spec (T1 T2 : unit_type R) :
  tag T1 = tag T2 ->
  proper (scale T1) -> proper (scale T2) ->
  in_range I64 (den (common_scale (scale T1) (scale T2))) ->
  std_common_type R_eqb common T1 T2
  = Ok (UnitType (tag T1) (common (rep T1) (rep T2))
          (common_scale (scale T1) (scale T2))).
Proof.
  intros Htag [L1 Ok1] [L2 Ok2] HL.
  pose proof L1 as [[Hn1 Hd1] G1]. pose proof L2 as [[Hn2 Hd2] G2].
  unfold std_common_type. rewrite Htag, Tag_eqb_refl. cbn [negb].
  destruct (R_eqb (rep T1) (rep T2) && ratio_eqb (scale T1) (scale T2)) eqn:Esame.
  - apply andb_true_iff in Esame as [Er Es].
    apply R_eqb_eq in Er. apply ratio_eqb_eq in Es.
    destruct T1 as [t1 r1 s1], T2 as [t2 r2 s2]; simpl in *. subst.
    unfold common_scale.
    rewrite common_idem, Z.gcd_diag, Z.lcm_diag, !Z.abs_eq by lia.
    destruct s2; reflexivity.
  - rewrite !gcd_spec, denominator_lcm by assumption.
    pose proof (common_scale_positive _ _ (proj1 L1) (proj1 L2)) as [Hg HL'].
    simpl in Hg, HL'.
    rewrite std_ratio_reduced
      by (try assumption; apply common_scale_coprime; assumption).
    fold (common_scale (scale T1) (scale T2)).
    assert (HfL : fits I64 (Z.lcm (den (scale T1)) (den (scale T2))) = true)
      by (apply fits_in_range; exact HL).
    rewrite HfL.
    assert (HokC : ratio_ok (common_scale (scale T1) (scale T2)) = true).
    { unfold ratio_ok. simpl. rewrite HfL.
      apply Z.ltb_lt in HL'. rewrite HL'.
      rewrite andb_true_r. simpl. apply fits_in_range.
      destruct (ratio_ok_fits _ Ok1) as (_ & Hf & _).
      assert (Z.gcd (num (scale T1)) (num (scale T2)) <= num (scale T1))
        by (apply Z.divide_pos_le; [lia | apply Z.gcd_divide_l]).
      ranges. lia. }
    rewrite HokC. reflexivity.
Qed.

End CommonTypeFacts.

Section WholeMultiples.

Lemma cast_product_in_range To Ru c z :
  in_range Ru c -> in_range To z -> (0 <= c -> 0 <= z) ->
  in_range (arith (common_type To Ru) I64) z.
Proof. destruct To, Ru; ranges; lia. Qed.

(** [unit_cast] to a scale that divides the source scale [k] times
    multiplies the count by [k]; nothing is divided away. *)
Lemma cast_to_multiple (To : unit_t) (u : unit) (k : Z) :
  tag To = tag (type_of u) ->
  positive (scale To) -> positive (scale (type_of u)) ->
  ratio_divide (scale (type_of u)) (scale To) = Ratio k 1 ->
  0 < k -> in_range I64 k ->
  in_range (rep (type_of u)) (m_val u) ->
  in_range (rep To) (m_val u * k) ->
  unit_cast To u = Ok (Unit To (m_val u * k)).
Proof.
  intros Htag HTo Hu EQ Hk Hk64 Hc Hck.
  assert (HcTo : in_range (rep To) (m_val u))
    by (eapply factor_in_range; eassumption).
  assert (Hv : convert (common_type (rep To) (rep (type_of u))) (m_val u) = m_val u)
    by (apply convert_id, in_range_both_common; assumption).
  rewrite (unit_cast_exact To u Htag HTo Hu); rewrite EQ; cbn [num den].
  - rewrite Hv, Z.quot_1_r, convert_id by assumption. reflexivity.
  - unfold ratio_ok. cbn [num den].
    apply fits_in_range in Hk64. rewrite Hk64. reflexivity.
  - rewrite Hv. apply (cast_product_in_range _ _ (m_val u)); try assumption.
    nia.
Qed.

(** The casts of the two operands of a binary operator to their common
    type. *)
Lemma cast_to_common_l (T1 T2 : unit_t) (c : Z) :
  tag T1 = tag T2 -> positive (scale T1) -> positive (scale T2) ->
  let CS := common_scale (scale T1) (scale T2) in
  let T := UnitType (tag T1) (common_type (rep T1) (rep T2)) CS in
  let k := factor (scale T1) CS in
  in_range I64 k ->
  in_range (rep T1) c -> in_range (rep T) (c * k) ->
  unit_cast T (Unit T1 c) = Ok (Unit T (c * k)).
Proof.
  intros Htag P1 P2 CS T k Hk Hc Hck.
  destruct (factor_l _ _ P1 P2) as (Hpos & EQ & _). fold CS k in Hpos, EQ.
  apply (cast_to_multiple T (Unit T1 c) k); try assumption.
  - reflexivity.
  - apply common_scale_positive; assumption.
Qed.

Lemma cast_to_common_r (T1 T2 : unit_t) (c : Z) :
  tag T1 = tag T2 -> positive (scale T1) -> positive (scale T2) ->
  let CS := common_scale (scale T1) (scale T2) in
  let T := UnitType (tag T1) (common_type (rep T1) (rep T2)) CS in
  let k := factor (scale T2) CS in
  in_range I64 k ->
  in_range (rep T2) c -> in_range (rep T) (c * k) ->
  unit_cast T (Unit T2 c) = Ok (Unit T (c * k)).
Proof.
  intros Htag P1 P2 CS T k Hk Hc Hck.
  destruct (factor_r _ _ P1 P2) as (Hpos & EQ & _). fold CS k in Hpos, EQ.
  apply (cast_to_multiple T (Unit T2 c) k); try assumption.
  apply common_scale_positive; assumption.
Qed.

End WholeMultiples.

(** ** Physical values *)

Section Physical.

Lemma physical_compare (u1 u2 : unit) :
  positive (scale (type_of u1)) -> positive (scale (type_of u2)) ->
  (physical u1 ?= physical u2)%Q
  = (m_val u1 * num (scale (type_of u1)) * den (scale (type_of u2))
     ?= m_val u2 * num (scale (type_of u2)) * den (scale (type_of u1))).
Proof.
  intros [_ H1] [_ H2]. unfold physical, Qcompare. simpl.
  rewrite !Z2Pos.id by assumption. reflexivity.
Qed.

Lemma physical_eq (u1 u2 : unit) :
  positive (scale (type_of u1)) -> positive (scale (type_of u2)) ->
  (physical u1 == physical u2)%Q
  <-> m_val u1 * num (scale (type_of u1)) * den (scale (type_of u2))
      = m_val u2 * num (scale (type_of u2)) * den (scale (type_of u1)).
Proof.
  intros P1 P2. rewrite Qeq_alt, physical_compare by assumption.
  apply Z.compare_eq_iff.
Qed.

Lemma physical_multiple (T To : unit_t) (c k : Z) :
  positive (scale T) -> positive (scale To) ->
  num (scale T) * den (scale To) = k * (num (scale To) * den (scale T)) ->
  (physical (Unit To (c * k)) == physical (Unit T c))%Q.
Proof.
  intros P1 P2 E. apply physical_eq; try assumption. simpl.
  transitivity (c * (k * (num (scale To) * den (scale T)))); [ring |].
  rewrite <- E. ring.
Qed.

End Physical.

Lemma Rep_eqb_eq a b : Rep_eqb a b = true -> a = b.
Proof.
  destruct a as [i | f], b as [j | g]; simpl; try discriminate.
  - intros H. apply IntRep_eqb_eq in H. congruence.
  - destruct f, g; simpl; congruence.
Qed.

Lemma common_rep_idem a : common_rep a a = a.
Proof. destruct a as [i | f]; simpl; [rewrite common_type_idem | destruct f]; reflexivity. Qed.

(** C2, as the claim has it, fails: the cast of an operand to the common
    type is not always the count times the whole factor.  The common type
    of [unit<watt_t, uint32_t, std::kilo>] and [unit<watt_t, uint32_t>] is
    the latter, the factor is 1000, and the cast of the count 5000000
    stores 5000000000 modulo 2^32, with another physical value. *)
Lemma common_type_cast_wraps :
  let T1 := UnitType example.watt_t U32 kilo in
  let T2 := UnitType example.watt_t U32 one in
  common_unit_t T1 T2 = Ok T2
  /\ factor (scale T1) (scale T2) = 1000
  /\ in_range U32 5000000
  /\ unit_cast T2 (Unit T1 5000000) = Ok (Unit T2 705032704)
  /\ 705032704 <> 5000000 * 1000
  /\ ~ (physical (Unit T2 705032704) == physical (Unit T1 5000000))%Q.
Proof.
  repeat split;
    first [ vm_compute; congruence | intros H; vm_compute in H; discriminate ].
Qed.

(** C2, amended.  Two instantiations with one tag and scales [N1/D1], [N2/D2] in
    lowest terms: the common type has the common representation and the
    scale [gcd(N1, N2) / lcm(D1, D2)]; each operand scale is a positive
    whole multiple [k] of it; and for integral representations [unit_cast]
    of an operand to the common type multiplies the count by [k], keeping
    the physical value, as long as the product is representable. *)
Theorem common_type_lossless (U1 U2 : unit_type Rep) :
  tag U1 = tag U2 -> proper (scale U1) -> proper (scale U2) ->
  let CS := common_scale (scale U1) (scale U2) in
  let k1 := factor (scale U1) CS in
  let k2 := factor (scale U2) CS in
  in_range I64 (den CS) -> in_range I64 k1 -> in_range I64 k2 ->
  common_unit_type U1 U2
  = Ok (UnitType (tag U1) (common_rep (rep U1) (rep U2)) CS)
  /\ (0 < k1 /\ ratio_divide (scale U1) CS = Ratio k1 1
      /\ num (scale U1) * den CS = k1 * (num CS * den (scale U1)))
  /\ (0 < k2 /\ ratio_divide (scale U2) CS = Ratio k2 1
      /\ num (scale U2) * den CS = k2 * (num CS * den (scale U2)))
  /\ forall T1 T2 : unit_t, any_rep T1 = U1 -> any_rep T2 = U2 ->
     let T := UnitType (tag T1) (common_type (rep T1) (rep T2)) CS in
     common_unit_t T1 T2 = Ok T
     /\ (forall c, in_range (rep T1) c -> in_range (rep T) (c * k1) ->
         unit_cast T (Unit T1 c) = Ok (Unit T (c * k1))
         /\ (physical (Unit T (c * k1)) == physical (Unit T1 c))%Q)
     /\ (forall c, in_range (rep T2) c -> in_range (rep T) (c * k2) ->
         unit_cast T (Unit T2 c) = Ok (Unit T (c * k2))
         /\ (physical (Unit T (c * k2)) == physical (Unit T2 c))%Q).
Proof.
  intros Htag Pr1 Pr2 CS k1 k2 HL Hk1 Hk2.
  pose proof (proj1 (proj1 Pr1)) as P1. pose proof (proj1 (proj1 Pr2)) as P2.
  pose proof (factor_l _ _ P1 P2) as F1. pose proof (factor_r _ _ P1 P2) as F2.
  pose proof (common_scale_positive _ _ P1 P2) as PC.
  fold CS k1 in F1. fold CS k2 in F2. fold CS in PC.
  split; [| split; [exact F1 | split; [exact F2 |]]].
  - apply std_common_type_spec; try assumption.
    + exact Rep_eqb_eq.
    + exact common_rep_idem.
  - intros T1 T2 E1 E2 T. subst U1 U2. simpl in *.
    split; [| split].
    + apply (std_common_type_spec IntRep_eqb common_type); try assumption.
      * intros a b. apply IntRep_eqb_eq.
      * exact common_type_idem.
    + intros c Hc Hck. split.
      * apply cast_to_common_l; assumption.
      * apply physical_multiple; try assumption. apply F1.
    + intros c Hc Hck. split.
      * apply cast_to_common_r; assumption.
      * apply physical_multiple; try assumption. apply F2.
Qed.

Lemma common_type_lossless_witness :
  common_unit_type (any_rep example.watt) (any_rep example.kilowatt)
  = Ok (any_rep example.watt)
  /\ unit_cast example.watt (Unit example.kilowatt 2)
     = Ok (Unit example.watt 2000).
Proof.
  assert (Pw : proper (scale (any_rep example.watt)))
    by (repeat split; simpl; try lia; reflexivity).
  assert (Pk : proper (scale (any_rep example.kilowatt)))
    by (repeat split; simpl; try lia; reflexivity).
  destruct (common_type_lossless (any_rep example.watt)
              (any_rep example.kilowatt) eq_refl Pw Pk)
    as (Hty & _ & _ & Hval); try (vm_compute; split; discriminate).
  split; [exact Hty |].
  destruct (Hval example.watt example.kilowatt eq_refl eq_refl)
    as (_ & _ & Hcast).
  apply (Hcast 2); vm_compute; split; discriminate.
Defined.

(** ** Addition and comparison *)

Section SameDimension.

(** Both operands of a binary operator, cast to the common type. *)
Lemma operands_to_common (a b : unit) :
  let T1 := type_of a in
  let T2 := type_of b in
  tag T1 = tag T2 -> proper (scale T1) -> proper (scale T2) ->
  let CS := common_scale (scale T1) (scale T2) in
  let k1 := factor (scale T1) CS in
  let k2 := factor (scale T2) CS in
  let T := UnitType (tag T1) (common_type (rep T1) (rep T2)) CS in
  in_range I64 (den CS) -> in_range I64 k1 -> in_range I64 k2 ->
  in_range (rep T1) (m_val a) -> in_range (rep T2) (m_val b) ->
  in_range (rep T) (m_val a * k1) -> in_range (rep T) (m_val b * k2) ->
  common_unit_t T1 T2 = Ok T
  /\ unit_cast T a = Ok (Unit T (m_val a * k1))
  /\ unit_cast T b = Ok (Unit T (m_val b * k2))
  /\ (physical (Unit T (m_val a * k1)) == physical a)%Q
  /\ (physical (Unit T (m_val b * k2)) == physical b)%Q
  /\ positive CS.
Proof.
  intros T1 T2 Htag Pr1 Pr2 CS k1 k2 T HL Hk1 Hk2 Hc1 Hc2 Hx Hy.
  destruct a as [Ta c1], b as [Tb c2]. cbn [type_of m_val] in *.
  pose proof (proj1 (proj1 Pr1)) as P1. pose proof (proj1 (proj1 Pr2)) as P2.
  pose proof (factor_l _ _ P1 P2) as (_ & _ & F1).
  pose proof (factor_r _ _ P1 P2) as (_ & _ & F2).
  pose proof (common_scale_positive _ _ P1 P2) as PC.
  fold CS k1 in F1. fold CS k2 in F2. fold CS in PC.
  repeat split; try apply PC.
  - apply (std_common_type_spec IntRep_eqb common_type); try assumption.
    + intros x y. apply IntRep_eqb_eq.
    + exact common_type_idem.
  - apply cast_to_common_l; assumption.
  - apply cast_to_common_r; assumption.
  - apply (physical_multiple T1 T); assumption.
  - apply (physical_multiple T2 T); assumption.
Qed.

End SameDimension.




(** C4, as the claim has it, fails: the counts are compared after their
    conversion to the common representation.  [unit<watt_t, int32_t>(-1)]
    and [unit<watt_t, uint32_t>(4294967295)] compare equal, and
    [unit<watt_t, int32_t>(-1)] is greater than [unit<watt_t, uint32_t>(1)],
    without undefined behaviour. *)
Lemma comparison_wraps :
  let a := Unit (UnitType example.watt_t I32 one) (-1) in
  let b := Unit (UnitType example.watt_t U32 one) 4294967295 in
  let c := Unit (UnitType example.watt_t U32 one) 1 in
  in_range I32 (m_val a) /\ in_range U32 (m_val b) /\ in_range U32 (m_val c)
  /\ op_eq a b = Ok true
  /\ ~ (physical a == physical b)%Q
  /\ op_cmp a c = Ok Gt
  /\ (physical a ?= physical c)%Q = Lt.
Proof.
  repeat split;
    first [ vm_compute; congruence | intros H; vm_compute in H; discriminate ].
Qed.

(** C4, amended.  Comparison of two quantities of one tag with integral
    representations, when both counts are representable in the common
    type: [a == b] holds exactly when the physical values are equal
    rationals, and [a <=> b] orders as the physical values do. *)
Theorem comparison_exact (a b : unit) :
  let T1 := type_of a in
  let T2 := type_of b in
  tag T1 = tag T2 -> proper (scale T1) -> proper (scale T2) ->
  let CS := common_scale (scale T1) (scale T2) in
  let k1 := factor (scale T1) CS in
  let k2 := factor (scale T2) CS in
  let T := UnitType (tag T1) (common_type (rep T1) (rep T2)) CS in
  in_range I64 (den CS) -> in_range I64 k1 -> in_range I64 k2 ->
  in_range (rep T1) (m_val a) -> in_range (rep T2) (m_val b) ->
  in_range (rep T) (m_val a * k1) -> in_range (rep T) (m_val b * k2) ->
  (exists e, op_eq a b = Ok e
             /\ (e = true <-> (physical a == physical b)%Q))
  /\ op_cmp a b = Ok (physical a ?= physical b)%Q.
Proof.
  intros T1 T2 Htag Pr1 Pr2 CS k1 k2 T HL Hk1 Hk2 Hc1 Hc2 Hx Hy.
  destruct (operands_to_common a b Htag Pr1 Pr2 HL Hk1 Hk2 Hc1 Hc2 Hx Hy)
    as (HT & Ha & Hb & Pa & Pb & PC).
  fold T1 T2 CS k1 k2 T in HT, Ha, Hb, Pa, Pb, PC.
  assert (Hcmp : (physical a ?= physical b)%Q = (m_val a * k1 ?= m_val b * k2)).
  { rewrite <- Pa, <- Pb. rewrite physical_compare by exact PC.
    cbn [m_val type_of scale].
    destruct PC as [Hg HLpos].
    rewrite <- (Z.mul_assoc (m_val a * k1)), <- (Z.mul_assoc (m_val b * k2)).
    symmetry. apply Zmult_compare_compat_r.
    apply Z.lt_gt, Z.mul_pos_pos; [exact Hg | exact HLpos]. }
  split.
  - exists (m_val a * k1 =? m_val b * k2). split.
    + unfold op_eq. fold T1 T2. rewrite HT. cbn [bind].
      rewrite Ha, Hb. reflexivity.
    + rewrite Qeq_alt, Hcmp, Z.eqb_eq. symmetry. apply Z.compare_eq_iff.
  - unfold op_cmp. fold T1 T2. rewrite HT. cbn [bind].
    rewrite Ha, Hb. cbn [bind m_val]. rewrite Hcmp. reflexivity.
Qed.

Lemma comparison_exact_witness :
  op_cmp (Unit example.kilowatt 2) (Unit example.watt 2500) = Ok Lt.
Proof.
  assert (Pw : proper (scale example.watt))
    by (repeat split; simpl; try lia; reflexivity).
  assert (Pk : proper (scale example.kilowatt))
    by (repeat split; simpl; try lia; reflexivity).
  refine (proj2 (comparison_exact (Unit example.kilowatt 2)
                   (Unit example.watt 2500) eq_refl Pk Pw _ _ _ _ _ _ _));
    vm_compute; split; discriminate.
Defined.

(** ** The converting constructor *)

(** C5, as the claim has it, fails: the guard of the converting
    constructor looks at the scales and at floating-pointness, not at the
    widths.  [unit<watt_t, int16_t>(unit<watt_t, int64_t, std::kilo>(70))]
    is accepted and stores 4464, not 70 times 1000. *)
Lemma converting_ctor_wraps :
  let T := UnitType example.watt_t I16 one in
  let u := Unit example.kilowatt 70 in
  converting_ctor_ok (Integral (rep T)) (scale T)
    (Integral (rep (type_of u))) (scale (type_of u)) = true
  /\ factor (scale (type_of u)) (scale T) = 1000
  /\ in_range (rep (type_of u)) (m_val u)
  /\ unit_from_unit T u = Ok (Unit T 4464)
  /\ 4464 <> m_val u * 1000.
Proof. repeat split; vm_compute; congruence. Qed.

(** C5, amended.  The constructor of [unit<Tag, Rep, Scale>] from a
    [unit<Tag, Rep2, Scale2>] is available exactly when [Rep] is floating
    point, or [Scale2 / Scale] is a whole number and [Rep2] is not floating
    point; and when it is available for integral [Rep] and [Rep2], the
    count it stores is the source count times the whole number
    [k = Scale2 / Scale] (as long as that product is representable in
    [Rep]): nothing is truncated away. *)
Theorem converting_ctor_lossless :
  (forall (Rep_ Rep2 : Rep) (Scale Scale2 : ratio),
     positive Scale -> positive Scale2 ->
     (converting_ctor_ok Rep_ Scale Rep2 Scale2 = true
      <-> treat_as_floating_point Rep_ = true
          \/ ((num Scale * den Scale2 | num Scale2 * den Scale)
              /\ treat_as_floating_point Rep2 = false)))
  /\ (forall (T : unit_t) (u : unit),
        tag T = tag (type_of u) ->
        positive (scale T) -> positive (scale (type_of u)) ->
        converting_ctor_ok (Integral (rep T)) (scale T)
          (Integral (rep (type_of u))) (scale (type_of u)) = true ->
        let k := factor (scale (type_of u)) (scale T) in
        in_range I64 k ->
        in_range (rep (type_of u)) (m_val u) ->
        in_range (rep T) (m_val u * k) ->
        0 < k
        /\ num (scale (type_of u)) * den (scale T)
           = k * (num (scale T) * den (scale (type_of u)))
        /\ unit_from_unit T u = Ok (Unit T (m_val u * k))).
Proof.
  split.
  - intros Rep_ Rep2 Scale Scale2 [Hn Hd] [Hn2 Hd2].
    unfold converting_ctor_ok, ratio_divide.
    rewrite orb_true_iff, andb_true_iff, negb_true_iff, Z.eqb_eq.
    rewrite std_ratio_den_one by nia.
    rewrite (Z.mul_comm (den Scale2) (num Scale)). tauto.
  - intros T u Htag PT Pu Hok k Hk64 Hc Hck.
    unfold converting_ctor_ok in Hok. cbn [treat_as_floating_point orb negb] in Hok.
    rewrite andb_true_r in Hok. apply Z.eqb_eq in Hok.
    destruct (ratio_divide_pos _ _ Pu PT) as [[[Hkpos _] _] Hx].
    fold (factor (scale (type_of u)) (scale T)) in Hkpos, Hx. fold k in Hkpos, Hx.
    rewrite Hok in Hx.
    assert (EQ : ratio_divide (scale (type_of u)) (scale T) = Ratio k 1).
    { unfold k, factor. rewrite <- Hok.
      destruct (ratio_divide (scale (type_of u)) (scale T)); reflexivity. }
    split; [exact Hkpos | split; [lia |]].
    unfold unit_from_unit.
    rewrite Htag, Tag_eqb_refl. cbn [negb].
    unfold converting_ctor_ok. cbn [treat_as_floating_point orb negb].
    rewrite Hok. cbn [Z.eqb Pos.eqb andb negb].
    rewrite (cast_to_multiple T u k Htag PT Pu EQ Hkpos Hk64 Hc Hck).
    cbn [bind count cast val type_of m_val rep].
    rewrite convert_id by assumption. reflexivity.
Qed.

Lemma converting_ctor_lossless_witness :
  unit_from_unit example.watt (Unit example.kilowatt 2)
  = Ok (Unit example.watt 2000).
Proof.
  refine (proj2 (proj2 (proj2 converting_ctor_lossless example.watt
                   (Unit example.kilowatt 2) eq_refl _ _ eq_refl _ _ _)));
    vm_compute; split; (reflexivity || discriminate).
Defined.

(** ** Products and quotients of quantities *)

Section Relations.

Lemma specialise_ok l T U r l' :
  ops.specialise l T U r = Ok l' ->
  ops.find l T U = None /\ l' = (T, U, r) :: l.
Proof.
  unfold ops.specialise. destruct (ops.find l T U); [discriminate |].
  intros E; injection E as <-. split; reflexivity.
Qed.

Lemma find_head l T U r : ops.find ((T, U, r) :: l) T U = Some r.
Proof. simpl. rewrite !Tag_eqb_refl. reflexivity. Qed.

Lemma find_skip l T U T' U' r :
  Tag_eqb T T' && Tag_eqb U U' = false ->
  ops.find ((T', U', r) :: l) T U = ops.find l T U.
Proof. intros H. simpl. rewrite H. reflexivity. Qed.

(** One [SU_MUL] gives the four relations. *)
Lemma SU_MUL_lookup tbl tbl' A B C :
  SU_MUL A B C tbl = Ok tbl' ->
  ops.mul tbl' A B = ops.Type_ C /\ ops.mul tbl' B A = ops.Type_ C
  /\ ops.div tbl' C A = ops.Type_ B /\ ops.div tbl' C B = ops.Type_ A.
Proof.
  unfold SU_MUL. intros H.
  destruct (ops.specialise (ops.div_specs tbl) C A B) as [d1 | |] eqn:E1;
    try discriminate.
  cbn [bind] in H.
  destruct (ops.specialise d1 C B A) as [d2 | |] eqn:E2; try discriminate.
  cbn [bind] in H.
  destruct (ops.specialise (ops.mul_specs tbl) A B C) as [m1 | |] eqn:E3;
    try discriminate.
  cbn [bind] in H.
  destruct (ops.specialise m1 B A C) as [m2 | |] eqn:E4; try discriminate.
  cbn [bind] in H. injection H as <-.
  apply specialise_ok in E1 as [_ ->], E2 as [F2 ->],
    E3 as [_ ->], E4 as [F4 ->].
  clear F4. simpl in F2. rewrite Tag_eqb_refl in F2. cbn [andb] in F2.
  assert (HBA : Tag_eqb B A = false)
    by (destruct (Tag_eqb B A); [discriminate | reflexivity]).
  assert (HAB : Tag_eqb A B = false).
  { destruct (Tag_eqb A B) eqn:E; [| reflexivity].
    apply Tag_eqb_eq in E. subst. rewrite Tag_eqb_refl in HBA. discriminate. }
  unfold ops.mul, ops.div. cbn [ops.mul_specs ops.div_specs].
  repeat split.
  - rewrite find_skip by (rewrite HAB; reflexivity).
    rewrite find_head. reflexivity.
  - rewrite find_head. reflexivity.
  - rewrite find_skip by (rewrite HAB, andb_false_r; reflexivity).
    rewrite find_head. reflexivity.
  - rewrite find_head. reflexivity.
Qed.

(** [a * b] when the relation yields a tag other than [void]. *)
Lemma op_mul_quantity tbl (x y : unit) (r : Tag) :
  ops.mul tbl (tag (type_of x)) (tag (type_of y)) = ops.Type_ r ->
  r <> void ->
  let CT := common_type (rep (type_of x)) (rep (type_of y)) in
  let S := ratio_multiply (scale (type_of x)) (scale (type_of y)) in
  ratio_ok S = true ->
  in_range CT (m_val x) -> in_range CT (m_val y) ->
  in_range CT (m_val x * m_val y) ->
  op_mul tbl x y = Ok (Quantity (Unit (UnitType r CT S) (m_val x * m_val y))).
Proof.
  intros Hrel Hr CT S Hok Hx Hy Hxy.
  unfold op_mul. rewrite Hrel. fold CT S. rewrite Hok. cbn [negb].
  rewrite c_mul_exact; cbn [count ty val];
    try (apply in_range_common_arith; assumption).
  cbn [bind].
  destruct r; [contradiction | |];
    unfold unit_of, cast; cbn [raw_ctor_ok treat_as_floating_point negb orb
                               rep ty val bind];
    rewrite !convert_id by (rewrite ?convert_id; assumption); reflexivity.
Qed.

(** [a / b] when the relation yields a tag other than [void]. *)
Lemma op_div_quantity tbl (x y : unit) (r : Tag) :
  ops.div tbl (tag (type_of x)) (tag (type_of y)) = ops.Type_ r ->
  r <> void ->
  let CT := common_type (rep (type_of x)) (rep (type_of y)) in
  let S := ratio_divide (scale (type_of x)) (scale (type_of y)) in
  ratio_ok S = true ->
  in_range CT (m_val x) -> in_range CT (m_val y) -> m_val y <> 0 ->
  in_range CT (m_val x ÷ m_val y) ->
  op_div tbl x y = Ok (Quantity (Unit (UnitType r CT S) (m_val x ÷ m_val y))).
Proof.
  intros Hrel Hr CT S Hok Hx Hy Hnz Hq.
  unfold op_div. rewrite Hrel. fold CT S. rewrite Hok. cbn [negb].
  destruct r; [contradiction | |];
    (rewrite c_div_exact; cbn [count ty val];
       try (apply in_range_common_arith; assumption); try assumption;
     cbn [bind]; unfold unit_of, cast;
     cbn [raw_ctor_ok treat_as_floating_point negb orb rep ty val bind];
     rewrite !convert_id by (rewrite ?convert_id; assumption); reflexivity).
Qed.


End Relations.




(** ** Dimensionless results *)

Section Dimensionless.

(** [a * b] when the relation yields [void]: the product of the counts,
    times [S::num], divided by [S::den], cast as a whole to the common
    representation. *)
Lemma op_mul_plain tbl (x y : unit) :
  ops.mul tbl (tag (type_of x)) (tag (type_of y)) = ops.Type_ void ->
  positive (scale (type_of x)) -> positive (scale (type_of y)) ->
  let CT := common_type (rep (type_of x)) (rep (type_of y)) in
  let S := ratio_multiply (scale (type_of x)) (scale (type_of y)) in
  ratio_ok S = true ->
  in_range CT (m_val x) -> in_range CT (m_val y) ->
  in_range CT (m_val x * m_val y) ->
  in_range (arith CT I64) (m_val x * m_val y * num S) ->
  op_mul tbl x y
  = Ok (Plain (TV CT (convert CT (m_val x * m_val y * num S ÷ den S)))).
Proof.
  intros Hrel Px Py CT S Hok Hx Hy Hxy Hprod.
  destruct (ratio_multiply_pos _ _ Px Py) as [[[Hn Hd] _] _].
  destruct (ratio_ok_fits _ Hok) as (_ & Hfn & Hfd).
  fold S in Hn, Hd.
  unfold op_mul. rewrite Hrel. fold CT S. rewrite Hok. cbn [negb].
  rewrite c_mul_exact; cbn [count ty val];
    try (apply in_range_common_arith; assumption).
  cbn [bind]. unfold cast at 1 2. cbn [val].
  rewrite convert_id by assumption.
  rewrite c_mul_exact; cbn [ty val]; try assumption;
    [| apply in_range_arith_intmax; assumption
     | apply intmax_pos_in_range; [lia | assumption]].
  cbn [bind].
  rewrite c_div_exact; cbn [ty val]; rewrite ?arith_intmax_idem;
    try assumption; try lia;
    [| apply intmax_pos_in_range; [lia | assumption]
     | apply quot_in_range; assumption].
  reflexivity.
Qed.


End Dimensionless.

(** C7. The quotient of two quantities of one tag is a plain number, and
    [kilowatt(2) / watt(500)] is 4.  The cast to the common representation
    in [operator/] covers the numerator [S::num * a.count()] only: with
    32-bit counts, [unit<watt_t, int32_t, std::kilo>(3000000) /
    unit<watt_t, int32_t>(1000)] has [(num * a.count) / (den * b.count) =
    3000000], representable in [int32_t], and evaluates to the 64-bit
    number -1294967. *)
Theorem op_div_plain_casts_numerator :
  let a := Unit (UnitType example.watt_t I32 kilo) 3000000 in
  let b := Unit (UnitType example.watt_t I32 one) 1000 in
  let S := ratio_divide kilo one in
  op_div ops.header (Unit example.kilowatt 2) (Unit example.watt 500)
  = Ok (Plain (TV I64 4))
  /\ in_range I32 (m_val a) /\ in_range I32 (m_val b)
  /\ num S * m_val a ÷ (den S * m_val b) = 3000000
  /\ in_range I32 3000000
  /\ common_type (rep (type_of a)) (rep (type_of b)) = I32
  /\ op_div ops.header a b = Ok (Plain (TV I64 (-1294967))).
Proof.
  repeat split; vm_compute; congruence.
Qed.

(** ** Compound assignment *)

Section CompoundAssignment.

Lemma compound_body_no_return op this x e :
  compound_body op this x = Ok e -> returned e = None.
Proof.
  unfold compound_body. destruct (op (count this) x); cbn [bind];
    try discriminate.
  intros E; injection E as <-. reflexivity.
Qed.

(** A call of a body that reaches no [return] does not return. *)
Lemma call_without_return op this x r :
  call_returning_ref (compound_body op this x) <> Ok r.
Proof.
  unfold call_returning_ref.
  destruct (compound_body op this x) as [e | |] eqn:E; cbn [bind];
    try discriminate.
  rewrite (compound_body_no_return _ _ _ _ E). discriminate.
Qed.

End CompoundAssignment.

(** C8. Every compound assignment operator computes the new count from
    the old count and the operand, and then flows off the end of its body:
    none has a [return] statement, so no call returns the reference its
    [unit&] return type declares.  [second(3) += second(2)] leaves the
    count 5 in the object and has undefined behaviour. *)
Theorem compound_assignment_never_returns (this u : unit) (v : tval) :
  (forall r, op_add_assign this u <> Ok r)
  /\ (forall r, op_sub_assign this u <> Ok r)
  /\ (forall r, op_mul_assign this v <> Ok r)
  /\ (forall r, op_div_assign this v <> Ok r)
  /\ (forall r, op_rem_assign this u <> Ok r)
  /\ (forall r, op_rem_assign_rep this v <> Ok r)
  /\ compound_body c_add (Unit example.second 3) (count (Unit example.second 2))
     = Ok (BodyEnd (Unit example.second 5) None)
  /\ op_add_assign (Unit example.second 3) (Unit example.second 2) = Undefined.
Proof.
  assert (Hmember : forall op r,
             (u' <- as_unit_arg (type_of this) u ;;
              call_returning_ref (compound_body op this (count u'))) <> Ok r).
  { intros op r. destruct (as_unit_arg (type_of this) u); cbn [bind];
      try discriminate. apply call_without_return. }
  split; [intros r; apply Hmember |].
  split; [intros r; apply Hmember |].
  split; [intros r; apply call_without_return |].
  split; [intros r; apply call_without_return |].
  split; [intros r; apply Hmember |].
  split; [intros r; apply call_without_return |].
  split; vm_compute; reflexivity.
Qed.

(** ** The duration bridge *)

Section Bridge.

Lemma ratio_divide_diag S : positive S -> ratio_divide S S = Ratio 1 1.
Proof.
  intros [Hn Hd]. unfold ratio_divide.
  rewrite std_ratio_divides; try nia.
  - rewrite (Z.mul_comm (den S)), Z.div_same by nia. reflexivity.
  - rewrite (Z.mul_comm (den S)). apply Z.divide_refl.
Qed.

Lemma unit_cast_same (u : unit) :
  positive (scale (type_of u)) ->
  in_range (rep (type_of u)) (m_val u) ->
  unit_cast (type_of u) u = Ok u.
Proof.
  intros P Hc.
  rewrite (cast_to_multiple (type_of u) u 1); try assumption;
    try reflexivity; try lia.
  - rewrite Z.mul_1_r. destruct u; reflexivity.
  - apply ratio_divide_diag; assumption.
  - ranges; lia.
  - rewrite Z.mul_1_r. assumption.
Qed.

End Bridge.

(** C9. For a duration-compatible tag, an integral representation and a
    positive scale: the conversion of a quantity to the duration type of
    the same representation and tick period, followed by the construction
    of a quantity of the original type from that duration, gives back the
    original quantity, which compares equal to it; so for [second(5)]. *)
Theorem duration_round_trip (u : unit) :
  is_duration_type (tag (type_of u)) = true ->
  positive (scale (type_of u)) -> ratio_ok (scale (type_of u)) = true ->
  in_range (rep (type_of u)) (m_val u) ->
  exists d,
    to_duration (rep (type_of u)) (scale (type_of u)) u = Ok d
    /\ d = chrono.Duration (rep (type_of u)) (scale (type_of u)) (m_val u)
    /\ unit_from_duration (type_of u) d = Ok u
    /\ op_eq u u = Ok true.
Proof.
  intros Hdur P Hok Hc.
  destruct u as [[t r s] c]. cbn [type_of tag rep scale m_val] in *.
  set (T := UnitType t r s). set (u := Unit T c).
  assert (Hcast : unit_cast T u = Ok u) by (apply (unit_cast_same u); assumption).
  assert (Hpos : (0 <? num s) = true) by (apply Z.ltb_lt, P).
  exists (chrono.Duration r s c). repeat split.
  - unfold to_duration. cbn [type_of tag rep scale u T].
    unfold chrono.period_ok. rewrite Hdur, Hok, Hpos. cbn [andb negb].
    fold T. fold u. rewrite Hcast. cbn [bind count cast val u m_val type_of rep T].
    rewrite convert_id by assumption. reflexivity.
  - unfold unit_from_duration, duration_ctor_ok, chrono.duration_cast.
    cbn [chrono.d_rep chrono.period chrono.ticks tag rep scale T
         treat_as_floating_point orb negb].
    rewrite Hdur, (ratio_divide_diag s P).
    unfold chrono.period_ok. rewrite Hok, Hpos.
    cbn [num den Z.eqb Pos.eqb andb negb bind cast val ty
         chrono.d_rep chrono.ticks].
    replace (ratio_ok (Ratio 1 1)) with true by reflexivity.
    cbn [andb negb bind cast val ty chrono.d_rep chrono.ticks].
    rewrite !convert_id by (rewrite ?convert_id; assumption). reflexivity.
  - unfold op_eq, common_unit_t, std_common_type.
    cbn [type_of u tag rep scale T].
    rewrite Tag_eqb_refl.
    replace (IntRep_eqb r r) with true by (symmetry; apply IntRep_eqb_eq; reflexivity).
    replace (ratio_eqb s s) with true by (symmetry; apply ratio_eqb_eq; reflexivity).
    cbn [negb andb bind]. fold T. fold u. rewrite Hcast.
    cbn [bind]. rewrite Z.eqb_refl. reflexivity.
Qed.

Lemma duration_round_trip_witness :
  exists d,
    to_duration I64 one (Unit example.second 5) = Ok d
    /\ unit_from_duration example.second d = Ok (Unit example.second 5).
Proof.
  assert (P : positive (scale example.second)) by (split; reflexivity).
  assert (Hc : in_range I64 5) by (split; discriminate).
  destruct (duration_round_trip (Unit example.second 5) eq_refl P eq_refl Hc)
    as (d & Hto & _ & Hfrom & _).
  exists d. split; [exact Hto | exact Hfrom].
Defined.

(** ** What constrains [unit_cast] *)

Section CastGuard.

Lemma arith_result_compiles W z : arith_result W z <> IllFormed.
Proof.
  unfold arith_result. destruct (is_signed W); [destruct (fits W z) |];
    discriminate.
Qed.

Lemma c_mul_compiles x y : c_mul x y <> IllFormed.
Proof. apply arith_result_compiles. Qed.

Lemma c_div_compiles x y : c_div x y <> IllFormed.
Proof.
  unfold c_div. destruct (_ =? 0); [discriminate | apply arith_result_compiles].
Qed.

(** For integral representations the body of [unit_cast] always compiles:
    only the tags and the ratio decide. *)
Lemma unit_cast_ill_formed (To : unit_t) (u : unit) :
  unit_cast To u = IllFormed
  <-> unit_cast_ok (any_rep To) (any_rep (type_of u)) = false.
Proof.
  unfold unit_cast, unit_cast_ok.
  cbn [any_rep tag rep scale common_rep arith_rep raw_ctor_ok
       treat_as_floating_point negb orb].
  rewrite andb_true_r.
  destruct (Tag_eqb (tag To) (tag (type_of u))); cbn [negb andb];
    [| tauto].
  destruct (ratio_ok (ratio_divide (scale To) (scale (type_of u))));
    cbn [negb]; [| tauto].
  split; [| discriminate].
  intros H. exfalso.
  destruct (c_mul _ _) as [x | |] eqn:Ex in H; cbn [bind] in H;
    [| apply c_mul_compiles in Ex; exact Ex | discriminate].
  destruct (c_div _ _) as [y | |] eqn:Ey in H; cbn [bind] in H;
    [| apply c_div_compiles in Ey; exact Ey | discriminate].
  discriminate.
Qed.

End CastGuard.

(** C10, as the claim has it, fails: with a floating-point source and an
    integral target of the same tag, [unit_cast] does not compile. *)
Lemma unit_cast_rejects_floating_source :
  let To := UnitType example.watt_t (Integral I64) one in
  let From := UnitType example.watt_t (Floating F64) one in
  tag To = tag From
  /\ treat_as_floating_point (rep From) = true
  /\ unit_cast_ok To From = false.
Proof. repeat split. Qed.

(** C10, amended.  [unit_cast] declares the sameness of the tags as its
    only constraint, and its body constructs the target from a number: the
    instantiation compiles exactly when the tags agree (and the ratio is
    representable) and the target is floating point or the source is not.
    Between integral representations it therefore compiles where the
    converting constructor is rejected, and then truncates:
    [unit_cast<kilowatt>(watt(999))] is [kilowatt(0)], while
    [kilowatt(watt(999))] does not compile. *)
Theorem unit_cast_guard :
  (forall To From : unit_type Rep,
     unit_cast_ok To From = true
     <-> tag To = tag From
         /\ ratio_ok (ratio_divide (scale To) (scale From)) = true
         /\ (treat_as_floating_point (rep To) = true
             \/ treat_as_floating_point (rep From) = false))
  /\ (forall (To : unit_t) (u : unit),
        unit_cast To u = IllFormed
        <-> ~ (tag To = tag (type_of u)
               /\ ratio_ok (ratio_divide (scale To) (scale (type_of u))) = true))
  /\ converting_ctor_ok (Integral I64) kilo (Integral I64) one = false
  /\ unit_from_unit example.kilowatt (Unit example.watt 999) = IllFormed
  /\ unit_cast example.kilowatt (Unit example.watt 999)
     = Ok (Unit example.kilowatt 0).
Proof.
  assert (Hok : forall To From : unit_type Rep,
            unit_cast_ok To From = true
            <-> tag To = tag From
                /\ ratio_ok (ratio_divide (scale To) (scale From)) = true
                /\ (treat_as_floating_point (rep To) = true
                    \/ treat_as_floating_point (rep From) = false)).
  { intros To From. unfold unit_cast_ok.
    rewrite !andb_true_iff, Tag_eqb_eq.
    assert (Hraw : raw_ctor_ok (rep To)
                     (arith_rep (arith_rep (common_rep (rep To) (rep From))
                                   (Integral I64)) (Integral I64)) = true
                   <-> treat_as_floating_point (rep To) = true
                       \/ treat_as_floating_point (rep From) = false).
    { destruct (rep To) as [i | f], (rep From) as [j | g]; cbn;
        intuition congruence. }
    rewrite Hraw. tauto. }
  split; [exact Hok | split; [| repeat split; vm_compute; reflexivity]].
  intros To u. rewrite unit_cast_ill_formed.
  rewrite <- not_true_iff_false, Hok.
  cbn [any_rep tag rep scale treat_as_floating_point]. intuition.
Qed.

(** ** The static assertions of [test.cpp] and [example.cpp]

    The assertions on integral representations, evaluated in the
    embedding. *)

Section StaticAssertions.

Import example.

Let with_relations {A : Type} (f : ops.table -> outcome A) : outcome A :=
  t <- relations ;; f t.

Let as_plain (r : outcome result) : outcome Z :=
  x <- r ;; match x with Plain n => Ok (val n) | Quantity _ => IllFormed end.

Let equals (r : outcome result) (u : unit) : outcome bool :=
  x <- r ;; match x with Quantity q => op_eq q u | Plain _ => IllFormed end.

Example assert_kilo_eq :
  op_eq (Unit kilosecond 5) (Unit second 5000) = Ok true.
Proof. vm_compute. reflexivity. Qed.

Example assert_int16_mega_eq :
  op_eq (Unit (UnitType second_t I16 mega) 5) (Unit second 5000000) = Ok true.
Proof. vm_compute. reflexivity. Qed.

Example assert_quotients :
  with_relations (fun t => as_plain (op_div t (Unit second 6) (Unit second 3))) = Ok 2
  /\ with_relations (fun t => as_plain (op_div t (Unit second 1) (Unit second 2))) = Ok 0
  /\ with_relations (fun t => as_plain (op_div t (Unit kilosecond 1) (Unit second 2))) = Ok 500
  /\ with_relations (fun t => as_plain (op_div t (Unit kilowatt 2) (Unit watt 500))) = Ok 4.
Proof. repeat split; vm_compute; reflexivity. Qed.

Example assert_sum_difference :
  (r <- op_add (Unit kilosecond 1) (Unit second 1) ;; op_eq r (Unit second 1001)) = Ok true
  /\ (r <- op_sub (Unit kilosecond 1) (Unit second 1) ;; op_eq r (Unit second 999)) = Ok true
  /\ (r <- op_add (Unit kilowatt 2) (Unit watt 500) ;; op_eq r (Unit watt 2500)) = Ok true.
Proof. repeat split; vm_compute; reflexivity. Qed.

Example assert_inverse_products :
  with_relations (fun t => as_plain (op_mul t (Unit second 3) (Unit hz 2))) = Ok 6
  /\ with_relations (fun t => as_plain (op_mul t (Unit hz 2) (Unit second 3))) = Ok 6
  /\ with_relations (fun t => as_plain (op_mul t (Unit kilosecond 3) (Unit hz 2))) = Ok 6000
  /\ with_relations (fun t => as_plain (op_mul t (Unit kilosecond 3) (Unit millihz 2))) = Ok 6.
Proof. repeat split; vm_compute; reflexivity. Qed.

Example assert_joule_products :
  with_relations (fun t => equals (op_mul t (Unit second 3) (Unit watt 2)) (Unit joule 6)) = Ok true
  /\ with_relations (fun t => equals (op_mul t (Unit watt 2) (Unit second 3)) (Unit joule 6)) = Ok true
  /\ with_relations (fun t => equals (op_mul t (Unit kilosecond 3) (Unit watt 2)) (Unit joule 6000)) = Ok true
  /\ with_relations (fun t => equals (op_mul t (Unit kilosecond 3)
                                        (Unit (UnitType watt_t I64 milli) 2)) (Unit joule 6)) = Ok true.
Proof. repeat split; vm_compute; reflexivity. Qed.

Example assert_as_nano :
  with_relations (fun t => equals (op_div t (Unit (UnitType void I64 nano) 1000000000)
                                        (Unit hz 20000000))
                                  (Unit (UnitType second_t I64 nano) 50)) = Ok true.
Proof. vm_compute. reflexivity. Qed.

Example assert_durations :
  to_duration I64 one (Unit second 5) = Ok (chrono.Duration I64 one 5)
  /\ to_duration I64 one (Unit kilosecond 5) = Ok (chrono.Duration I64 one 5000)
  /\ (u <- unit_from_duration second (chrono.Duration I64 one 5000) ;;
      op_eq (Unit kilosecond 5) u) = Ok true.
Proof. repeat split; vm_compute; reflexivity. Qed.

End StaticAssertions.

(** * Further properties of the header *)

(** ** [su::detail::gcd] *)

(** X1. For arguments whose negation is representable in [intmax_t],
    [detail::gcd] returns the greatest common divisor: not negative,
    representable, a divisor of both arguments that every common divisor
    divides; it does not depend on the order or the signs of the
    arguments, and [gcd(a, 0)] is [abs(a)]. *)
Theorem detail_gcd_greatest (a b : Z) :
  - max_of I64 <= a <= max_of I64 ->
  - max_of I64 <= b <= max_of I64 ->
  let g := detail.gcd a b in
  0 <= g <= max_of I64
  /\ (g | a) /\ (g | b)
  /\ (forall d, (d | a) -> (d | b) -> (d | g))
  /\ g = detail.gcd b a
  /\ g = detail.gcd (- a) b
  /\ detail.gcd a 0 = Z.abs a
  /\ (g = 0 <-> a = 0 /\ b = 0).
Proof.
  intros Ha Hb g. unfold g. rewrite !gcd_spec.
  assert (Hle : Z.gcd a b <= max_of I64).
  { destruct (Z.eq_dec a 0) as [-> | Hnz].
    - rewrite Z.gcd_0_l. ranges. lia.
    - pose proof (Z.gcd_divide_l a b) as Hd.
      apply Z.divide_abs_r in Hd.
      apply Z.divide_pos_le in Hd; ranges; lia. }
  split; [split; [apply Z.gcd_nonneg | exact Hle] |].
  split; [apply Z.gcd_divide_l |].
  split; [apply Z.gcd_divide_r |].
  split; [intros d; apply Z.gcd_greatest |].
  split; [apply Z.gcd_comm |].
  split; [symmetry; apply Z.gcd_opp_l |].
  split; [apply Z.gcd_0_r |].
  split.
  - intros E. split;
      [apply (Z.gcd_eq_0_l a b E) | apply (Z.gcd_eq_0_r a b E)].
  - intros [-> ->]. reflexivity.
Qed.

Lemma detail_gcd_greatest_witness :
  detail.gcd (-1000000000) 36 = 4 /\ detail.gcd 36 (-1000000000) = 4.
Proof.
  assert (Ha : - max_of I64 <= -1000000000 <= max_of I64)
    by (split; discriminate).
  assert (Hb : - max_of I64 <= 36 <= max_of I64) by (split; discriminate).
  destruct (detail_gcd_greatest (-1000000000) 36 Ha Hb)
    as (_ & _ & _ & _ & Hcomm & _).
  split; [| rewrite <- Hcomm]; vm_compute; reflexivity.
Defined.

(** ** [std::common_type] *)

Section CommonTypeLaws.

Lemma common_type_comm a b : common_type a b = common_type b a.
Proof. destruct a, b; reflexivity. Qed.

Lemma common_rep_comm a b : common_rep a b = common_rep b a.
Proof.
  destruct a as [i | f], b as [j | g]; simpl; try reflexivity.
  - rewrite common_type_comm. reflexivity.
  - destruct f, g; reflexivity.
Qed.

Lemma Rep_eqb_refl a : Rep_eqb a a = true.
Proof. destruct a as [i | f]; [destruct i | destruct f]; reflexivity. Qed.

Lemma denominator_comm d1 d2 :
  d1 ÷ Z.gcd d1 d2 * d2 = d2 ÷ Z.gcd d2 d1 * d1.
Proof.
  rewrite (Z.gcd_comm d2 d1).
  destruct (Z.eq_dec (Z.gcd d1 d2) 0) as [E | Hnz].
  - pose proof (Z.gcd_eq_0_l _ _ E). pose proof (Z.gcd_eq_0_r _ _ E).
    subst. reflexivity.
  - destruct (Z.gcd_divide_l d1 d2) as [x Hx].
    destruct (Z.gcd_divide_r d1 d2) as [y Hy].
    set (g := Z.gcd d1 d2) in *. clearbody g. subst d1 d2.
    rewrite !Z.quot_mul by assumption. ring.
Qed.

Context {R : Type} (R_eqb : R -> R -> bool) (common : R -> R -> R).
Hypothesis R_eqb_eq : forall a b, R_eqb a b = true -> a = b.
Hypothesis R_eqb_refl : forall a, R_eqb a a = true.
Hypothesis common_comm : forall a b, common a b = common b a.

Lemma std_common_type_comm (T1 T2 : unit_type R) :
  std_common_type R_eqb common T1 T2 = std_common_type R_eqb common T2 T1.
Proof.
  unfold std_common_type.
  destruct (Tag_eqb (tag T1) (tag T2)) eqn:Et.
  - apply Tag_eqb_eq in Et. rewrite <- Et, Tag_eqb_refl. cbn [negb].
    destruct (R_eqb (rep T1) (rep T2) && ratio_eqb (scale T1) (scale T2))
      eqn:Es.
    + apply andb_true_iff in Es as [Er Es].
      apply R_eqb_eq in Er. apply ratio_eqb_eq in Es.
      assert (E : T1 = T2)
        by (destruct T1, T2; simpl in *; congruence).
      subst T2. rewrite R_eqb_refl.
      replace (ratio_eqb (scale T1) (scale T1)) with true
        by (symmetry; apply ratio_eqb_eq; reflexivity).
      reflexivity.
    + assert (Es' : R_eqb (rep T2) (rep T1)
                    && ratio_eqb (scale T2) (scale T1) = false).
      { destruct (R_eqb (rep T2) (rep T1) && ratio_eqb (scale T2) (scale T1))
          eqn:E; [| reflexivity].
        apply andb_true_iff in E as [Er E2].
        apply R_eqb_eq in Er. apply ratio_eqb_eq in E2.
        rewrite Er, E2, R_eqb_refl in Es.
        replace (ratio_eqb (scale T1) (scale T1)) with true in Es
          by (symmetry; apply ratio_eqb_eq; reflexivity).
        discriminate. }
      rewrite Es'.
      rewrite !gcd_spec.
      rewrite (denominator_comm (den (scale T2))),
        (Z.gcd_comm (num (scale T2))), (common_comm (rep T2)).
      reflexivity.
  - assert (Et' : Tag_eqb (tag T2) (tag T1) = false).
    { destruct (Tag_eqb (tag T2) (tag T1)) eqn:E; [| reflexivity].
      apply Tag_eqb_eq in E. rewrite E, Tag_eqb_refl in Et. discriminate. }
    rewrite Et'. reflexivity.
Qed.

Lemma std_common_type_idem (T : unit_type R) :
  std_common_type R_eqb common T T = Ok T.
Proof.
  unfold std_common_type. rewrite Tag_eqb_refl, R_eqb_refl.
  replace (ratio_eqb (scale T) (scale T)) with true
    by (symmetry; apply ratio_eqb_eq; reflexivity).
  reflexivity.
Qed.

End CommonTypeLaws.

Lemma IntRep_eqb_refl a : IntRep_eqb a a = true.
Proof. destruct a; reflexivity. Qed.

Lemma common_unit_t_comm T1 T2 : common_unit_t T1 T2 = common_unit_t T2 T1.
Proof.
  apply std_common_type_comm.
  - intros a b. apply IntRep_eqb_eq.
  - exact IntRep_eqb_refl.
  - exact common_type_comm.
Qed.

Lemma common_unit_t_idem T : common_unit_t T T = Ok T.
Proof. apply std_common_type_idem. exact IntRep_eqb_refl. Qed.

(** X2. The common type of two instantiations does not depend on their
    order, whatever the representations and scales (also when it does
    not exist), and the common type of an instantiation with itself is
    that instantiation. *)
Theorem common_type_symmetric (U1 U2 : unit_type Rep) :
  common_unit_type U1 U2 = common_unit_type U2 U1
  /\ common_unit_type U1 U1 = Ok U1.
Proof.
  split.
  - apply std_common_type_comm.
    + exact Rep_eqb_eq.
    + exact Rep_eqb_refl.
    + exact common_rep_comm.
  - apply std_common_type_idem. exact Rep_eqb_refl.
Qed.

(** ** Round trips and truncation of [unit_cast] *)

(** A scale as a rational number. *)
Definition scale_Q (S : ratio) : Q := num S # Z.to_pos (den S).

Section CastLaws.

Lemma product_in_common Ru To c z :
  in_range Ru c -> in_range To z -> (0 <= c -> 0 <= z) ->
  in_range (common_type Ru To) z.
Proof. destruct Ru, To; ranges; lia. Qed.

(** [unit_cast] to a scale [k] times coarser divides the count by [k]. *)
Lemma cast_to_fraction (To : unit_t) (x : unit) (k : Z) :
  tag To = tag (type_of x) ->
  positive (scale To) -> positive (scale (type_of x)) ->
  ratio_divide (scale To) (scale (type_of x)) = Ratio k 1 ->
  0 < k -> in_range I64 k ->
  in_range (common_type (rep To) (rep (type_of x))) (m_val x) ->
  unit_cast To x = Ok (Unit To (convert (rep To) (m_val x ÷ k))).
Proof.
  intros Htag PTo Px EQ Hk Hk64 Hc.
  destruct (ratio_divide_swap (scale (type_of x)) (scale To) Px PTo) as [En Ed].
  rewrite EQ in En, Ed. cbn [num den] in En, Ed.
  rewrite (unit_cast_exact To x Htag PTo Px); rewrite ?En, ?Ed;
    try rewrite (convert_id _ _ Hc); rewrite ?Z.mul_1_r.
  - reflexivity.
  - unfold ratio_ok. rewrite En, Ed.
    apply Z.ltb_lt in Hk. apply fits_in_range in Hk64.
    rewrite Hk, Hk64. reflexivity.
  - apply in_range_arith_intmax. assumption.
Qed.

(** Bounds of a truncated quotient, cross-multiplied. *)
Lemma truncation_bounds c n d nS dS n2 d2 :
  0 < n -> 0 < d -> 0 < dS -> 0 < n2 ->
  n * (dS * n2) = d * (nS * d2) ->
  let q := c * n ÷ d in
  (0 <= c -> q * n2 * dS <= c * nS * d2 < (q + 1) * n2 * dS)
  /\ (c <= 0 -> (q - 1) * n2 * dS < c * nS * d2 <= q * n2 * dS).
Proof.
  intros Hn Hd HdS Hn2 E q.
  pose proof (Z.quot_rem' (c * n) d) as Hqr. fold q in Hqr.
  assert (Hm : 0 < dS * n2) by nia.
  assert (Ec : d * (c * nS * d2) = (c * n) * (dS * n2))
    by (transitivity (c * (d * (nS * d2))); [ring | rewrite <- E; ring]).
  split; intros Hc.
  - pose proof (Z.rem_bound_pos (c * n) d ltac:(nia) Hd) as Hr.
    assert (H1 : d * (q * n2 * dS) <= d * (c * nS * d2)).
    { rewrite Ec. transitivity ((d * q) * (dS * n2)); [apply Z.eq_le_incl; ring |].
      apply Z.mul_le_mono_nonneg_r; lia. }
    assert (H2 : d * (c * nS * d2) < d * ((q + 1) * n2 * dS)).
    { rewrite Ec.
      replace (d * ((q + 1) * n2 * dS)) with ((d * q + d) * (dS * n2)) by ring.
      apply Z.mul_lt_mono_pos_r; lia. }
    apply Z.mul_le_mono_pos_l in H1; [| assumption].
    apply Z.mul_lt_mono_pos_l in H2; [| assumption]. lia.
  - pose proof (Z.rem_bound_pos_neg (c * n) d Hd ltac:(nia)) as Hr.
    assert (H1 : d * (c * nS * d2) <= d * (q * n2 * dS)).
    { rewrite Ec. transitivity ((d * q) * (dS * n2)); [| apply Z.eq_le_incl; ring].
      apply Z.mul_le_mono_nonneg_r; lia. }
    assert (H2 : d * ((q - 1) * n2 * dS) < d * (c * nS * d2)).
    { rewrite Ec.
      replace (d * ((q - 1) * n2 * dS)) with ((d * q - d) * (dS * n2)) by ring.
      apply Z.mul_lt_mono_pos_r; lia. }
    apply Z.mul_le_mono_pos_l in H1; [| assumption].
    apply Z.mul_lt_mono_pos_l in H2; [| assumption]. lia.
Qed.

End CastLaws.

(** X3. Casting a quantity to a type of the same tag whose scale divides
    its own [k] times, and the result back to the original type, gives
    the original quantity: the first cast multiplies the count by [k], the
    second divides it by [k] again.  (The count times [k] is taken
    representable in the finer type.) *)
Theorem unit_cast_round_trip (To : unit_t) (u : unit) (k : Z) :
  tag To = tag (type_of u) ->
  positive (scale To) -> positive (scale (type_of u)) ->
  ratio_divide (scale (type_of u)) (scale To) = Ratio k 1 ->
  0 < k -> in_range I64 k ->
  in_range (rep (type_of u)) (m_val u) ->
  in_range (rep To) (m_val u * k) ->
  unit_cast To u = Ok (Unit To (m_val u * k))
  /\ unit_cast (type_of u) (Unit To (m_val u * k)) = Ok u.
Proof.
  intros Htag PTo Pu EQ Hk Hk64 Hc Hck.
  split; [apply cast_to_multiple; assumption |].
  rewrite (cast_to_fraction (type_of u) (Unit To (m_val u * k)) k);
    cbn [type_of m_val]; try assumption; try (symmetry; assumption).
  - rewrite Z.quot_mul by lia. rewrite convert_id by assumption.
    destruct u; reflexivity.
  - apply (product_in_common _ _ (m_val u)); try assumption. nia.
Qed.

Lemma unit_cast_round_trip_witness :
  unit_cast example.watt (Unit example.kilowatt 2) = Ok (Unit example.watt 2000)
  /\ unit_cast example.kilowatt (Unit example.watt 2000)
     = Ok (Unit example.kilowatt 2).
Proof.
  assert (Pw : positive (scale example.watt)) by (split; reflexivity).
  assert (Pk : positive (scale example.kilowatt)) by (split; reflexivity).
  assert (H1 : in_range I64 1000) by (split; discriminate).
  assert (H2 : in_range I64 2) by (split; discriminate).
  assert (H3 : in_range I64 (2 * 1000)) by (split; discriminate).
  exact (unit_cast_round_trip example.watt (Unit example.kilowatt 2) 1000
           eq_refl Pw Pk eq_refl eq_refl H1 H2 H3).
Defined.

(** X4. [unit_cast] to any scale truncates towards zero and loses less
    than one unit of the target scale: for a count that is not negative the
    physical value of the result is at most that of the source and more
    than it minus one target unit, and the other way round for a count that
    is not positive. *)
Theorem unit_cast_truncates (To : unit_t) (u : unit) :
  tag To = tag (type_of u) ->
  positive (scale To) -> positive (scale (type_of u)) ->
  let Q := ratio_divide (scale (type_of u)) (scale To) in
  let CT := common_type (rep To) (rep (type_of u)) in
  let q := m_val u * num Q ÷ den Q in
  ratio_ok Q = true ->
  in_range CT (m_val u) ->
  in_range (arith CT I64) (m_val u * num Q) ->
  in_range (rep To) q ->
  unit_cast To u = Ok (Unit To q)
  /\ (0 <= m_val u ->
      (physical (Unit To q) <= physical u)%Q
      /\ (physical u < physical (Unit To q) + scale_Q (scale To))%Q)
  /\ (m_val u <= 0 ->
      (physical u <= physical (Unit To q))%Q
      /\ (physical (Unit To q) - scale_Q (scale To) < physical u)%Q).
Proof.
  intros Htag PTo Pu Q CT q Hok Hc Hprod Hq.
  destruct (ratio_divide_pos _ _ Pu PTo) as [[[Hn Hd] _] E].
  fold Q in Hn, Hd, E.
  destruct PTo as [Hn2 Hd2]. destruct Pu as [HnS HdS].
  pose proof (truncation_bounds (m_val u) (num Q) (den Q)
                (num (scale (type_of u))) (den (scale (type_of u)))
                (num (scale To)) (den (scale To)) Hn Hd HdS Hn2 E)
    as [Bpos Bneg].
  fold q in Bpos, Bneg.
  split.
  - rewrite (unit_cast_exact To u Htag (conj Hn2 Hd2) (conj HnS HdS) Hok);
      fold Q CT; rewrite (convert_id CT) by assumption.
    + fold q. rewrite convert_id by assumption. reflexivity.
    + exact Hprod.
  - unfold physical, scale_Q, Qle, Qlt, Qminus, Qplus, Qopp, Qmult, inject_Z.
    cbn [Qnum Qden m_val type_of].
    rewrite !Pos2Z.inj_mul, !Z2Pos.id by assumption.
    change (Z.pos 1) with 1.
    split; intros Hsign; [specialize (Bpos Hsign) | specialize (Bneg Hsign)];
      split; nia.
Qed.

Lemma unit_cast_truncates_witness :
  unit_cast example.kilowatt (Unit example.watt (-2999))
  = Ok (Unit example.kilowatt (-2)).
Proof.
  assert (Pw : positive (scale example.watt)) by (split; reflexivity).
  assert (Pk : positive (scale example.kilowatt)) by (split; reflexivity).
  assert (H1 : in_range I64 (-2999)) by (split; discriminate).
  assert (H3 : in_range I64 (-2)) by (split; discriminate).
  exact (proj1 (unit_cast_truncates example.kilowatt (Unit example.watt (-2999))
                  eq_refl Pk Pw eq_refl H1 H1 H3)).
Defined.

(** ** Laws of addition, subtraction and comparison *)

Section SameDimensionLaws.

Lemma arith_comm a b : arith a b = arith b a.
Proof. destruct a, b; reflexivity. Qed.

Lemma c_add_comm x y : c_add x y = c_add y x.
Proof. unfold c_add. rewrite (arith_comm (ty y)), Z.add_comm. reflexivity. Qed.

Lemma c_sub_exact x y :
  let W := arith (ty x) (ty y) in
  in_range W (val x) -> in_range W (val y) -> in_range W (val x - val y) ->
  c_sub x y = Ok (TV W (val x - val y)).
Proof.
  intros W Hx Hy Hxy. unfold c_sub. fold W.
  rewrite !convert_id by assumption. apply arith_result_exact, Hxy.
Qed.

Lemma zero_value (T : unit_t) : zero T = Ok (Unit T 0).
Proof.
  unfold zero, unit_of. cbn [raw_ctor_ok treat_as_floating_point negb orb cast val].
  rewrite convert_id; [reflexivity |].
  pose proof (min_max_of (rep T)). unfold in_range. lia.
Qed.

End SameDimensionLaws.

(** X5. [a - b] for two quantities of one tag: a quantity of the common
    type whose count is the difference of the counts after [unit_cast] to
    the common type, and whose physical value is the difference of the
    physical values (casts and difference taken representable in the
    common representation). *)
Theorem op_sub_exact (a b : unit) :
  let T1 := type_of a in
  let T2 := type_of b in
  tag T1 = tag T2 -> proper (scale T1) -> proper (scale T2) ->
  let CS := common_scale (scale T1) (scale T2) in
  let k1 := factor (scale T1) CS in
  let k2 := factor (scale T2) CS in
  let T := UnitType (tag T1) (common_type (rep T1) (rep T2)) CS in
  in_range I64 (den CS) -> in_range I64 k1 -> in_range I64 k2 ->
  in_range (rep T1) (m_val a) -> in_range (rep T2) (m_val b) ->
  in_range (rep T) (m_val a * k1) -> in_range (rep T) (m_val b * k2) ->
  in_range (rep T) (m_val a * k1 - m_val b * k2) ->
  op_sub a b = Ok (Unit T (m_val a * k1 - m_val b * k2))
  /\ (physical (Unit T (m_val a * k1 - m_val b * k2))
      == physical a - physical b)%Q.
Proof.
  intros T1 T2 Htag Pr1 Pr2 CS k1 k2 T HL Hk1 Hk2 Hc1 Hc2 Hx Hy Hdiff.
  destruct (operands_to_common a b Htag Pr1 Pr2 HL Hk1 Hk2 Hc1 Hc2 Hx Hy)
    as (HT & Ha & Hb & Pa & Pb & PC).
  fold T1 T2 CS k1 k2 T in HT, Ha, Hb, Pa, Pb, PC.
  split.
  - unfold op_sub. fold T1 T2. rewrite HT. cbn [bind].
    rewrite Ha, Hb. cbn [bind].
    rewrite c_sub_exact; cbn [count ty val type_of rep m_val];
      try (apply in_range_promote; assumption).
    cbn [bind]. unfold unit_of. cbn [raw_ctor_ok treat_as_floating_point
      negb orb cast val rep].
    rewrite convert_id by assumption. reflexivity.
  - rewrite <- Pa, <- Pb. unfold physical. cbn [m_val type_of].
    unfold Z.sub. rewrite inject_Z_plus, inject_Z_opp. ring.
Qed.

Lemma op_sub_exact_witness :
  op_sub (Unit example.kilowatt 2) (Unit example.watt 500)
  = Ok (Unit example.watt 1500).
Proof.
  assert (Pw : proper (scale example.watt))
    by (repeat split; simpl; try lia; reflexivity).
  assert (Pk : proper (scale example.kilowatt))
    by (repeat split; simpl; try lia; reflexivity).
  assert (R : forall z, -10000 <= z <= 10000 -> in_range I64 z)
    by (intros z Hz; ranges; lia).
  refine (proj1 (op_sub_exact (Unit example.kilowatt 2) (Unit example.watt 500)
                   eq_refl Pk Pw _ _ _ _ _ _ _ _));
    apply R; vm_compute; split; discriminate.
Defined.

(** X6. Addition does not depend on the order of its operands: [a + b]
    gives a quantity exactly when [b + a] gives it. *)
Theorem op_add_commutes (a b r : unit) :
  op_add a b = Ok r <-> op_add b a = Ok r.
Proof.
  unfold op_add. rewrite (common_unit_t_comm (type_of b)).
  destruct (common_unit_t (type_of a) (type_of b)) as [T | |]; cbn [bind];
    [| tauto | tauto].
  destruct (unit_cast T a) as [x | |], (unit_cast T b) as [y | |];
    cbn [bind]; try tauto; try (split; discriminate).
  rewrite c_add_comm. tauto.
Qed.

(** X7. [zero()] is neutral: for a quantity [a] with a count of its
    representation, [a + zero()], [zero() + a] and [a - zero()] are [a],
    and [a - a] is [zero()]. *)
Theorem zero_is_neutral (a : unit) :
  positive (scale (type_of a)) ->
  in_range (rep (type_of a)) (m_val a) ->
  exists z,
    zero (type_of a) = Ok z /\ m_val z = 0
    /\ op_add a z = Ok a /\ op_add z a = Ok a
    /\ op_sub a z = Ok a /\ op_sub a a = Ok z.
Proof.
  intros P Hc. destruct a as [T c]. cbn [type_of m_val] in *.
  exists (Unit T 0).
  assert (H0 : in_range (rep T) 0)
    by (pose proof (min_max_of (rep T)); unfold in_range; lia).
  assert (Ha : unit_cast T (Unit T c) = Ok (Unit T c))
    by (apply (unit_cast_same (Unit T c)); assumption).
  assert (Hz : unit_cast T (Unit T 0) = Ok (Unit T 0))
    by (apply (unit_cast_same (Unit T 0)); assumption).
  split; [apply zero_value | split; [reflexivity |]].
  unfold op_add, op_sub. cbn [type_of].
  rewrite common_unit_t_idem. cbn [bind]. rewrite Ha, Hz. cbn [bind].
  unfold unit_of.
  cbn [raw_ctor_ok treat_as_floating_point negb orb cast val rep].
  rewrite !c_add_exact, !c_sub_exact;
    cbn [count ty val type_of rep m_val];
    rewrite ?Z.add_0_r, ?Z.add_0_l, ?Z.sub_0_r, ?Z.sub_diag;
    try (apply in_range_promote; assumption).
  cbn [bind val]. rewrite !convert_id by assumption.
  repeat split; reflexivity.
Qed.

Lemma zero_is_neutral_witness :
  op_add (Unit example.watt 500) (Unit example.watt 0)
  = Ok (Unit example.watt 500).
Proof.
  assert (Pw : positive (scale example.watt)) by (split; reflexivity).
  assert (H : in_range I64 500) by (split; discriminate).
  destruct (zero_is_neutral (Unit example.watt 500) Pw H)
    as (z & Hz & _ & Hadd & _).
  vm_compute in Hz. injection Hz as <-. exact Hadd.
Defined.

(** X8. [==] is symmetric, [<=>] of the swapped operands is the opposite
    ordering, and [a == b] is true exactly when [a <=> b] is [equal]:
    whatever the representations and scales, also when a cast overflows. *)
Theorem comparison_laws (a b : unit) :
  (forall e, op_eq a b = Ok e <-> op_eq b a = Ok e)
  /\ (forall o, op_cmp a b = Ok o <-> op_cmp b a = Ok (CompOpp o))
  /\ (op_eq a b = Ok true <-> op_cmp a b = Ok Eq).
Proof.
  unfold op_eq, op_cmp. rewrite (common_unit_t_comm (type_of b)).
  destruct (common_unit_t (type_of a) (type_of b)) as [T | |]; cbn [bind];
    [| repeat split; intros; discriminate
     | repeat split; intros; discriminate].
  destruct (unit_cast T a) as [x | |], (unit_cast T b) as [y | |];
    cbn [bind]; try (repeat split; intros; discriminate).
  split; [| split].
  - intros e. rewrite (Z.eqb_sym (m_val y)). tauto.
  - intros o. rewrite (Z.compare_antisym (m_val x) (m_val y)).
    split; intros E; injection E as E.
    + rewrite <- E. reflexivity.
    + apply CompOpp_inj in E. rewrite E. reflexivity.
  - split; intros E; injection E as E; f_equal.
    + apply Z.compare_eq_iff, Z.eqb_eq, E.
    + apply Z.eqb_eq, Z.compare_eq_iff, E.
Qed.

(** ** Unary minus, [zero], [min], [max] and [value] *)

Section Members.

Lemma in_range_promoted t z : in_range t z -> in_range (promote t) z.
Proof. destruct t; ranges; lia. Qed.

Lemma convert_idem t z : convert t (convert t z) = convert t z.
Proof. apply convert_id, convert_in_range. Qed.

Lemma promote_unsigned t : is_signed (promote t) = false -> promote t = t.
Proof. destruct t; simpl; congruence. Qed.

Lemma ratio_divide_one S : lowest_terms S -> ratio_divide S one = S.
Proof.
  intros [[Hn Hd] Hg]. unfold ratio_divide, one. cbn [num den].
  rewrite !Z.mul_1_r, std_ratio_reduced by assumption.
  destruct S; reflexivity.
Qed.

End Members.

(** X9. Unary minus of a quantity with a count of its representation has
    undefined behaviour exactly when the representation is [int32_t] or
    [int64_t] and the count is the minimum; in every other case the result
    has the count [-c] converted to the representation: [-c] itself for a
    signed representation whose minimum is not negated, the minimum again
    for the minimum of [int8_t] and [int16_t], and the two's complement
    for an unsigned one. *)
Theorem op_neg_defined (u : unit) :
  let t := rep (type_of u) in
  let c := m_val u in
  in_range t c ->
  (op_neg u = Undefined <-> (t = I32 \/ t = I64) /\ c = min_of t)
  /\ (op_neg u <> Undefined ->
      op_neg u = Ok (Unit (type_of u) (convert t (- c))))
  /\ (is_signed t = true -> c <> min_of t ->
      op_neg u = Ok (Unit (type_of u) (- c))
      /\ (physical (Unit (type_of u) (- c)) == - physical u)%Q)
  /\ ((t = I8 \/ t = I16) -> c = min_of t -> op_neg u = Ok u).
Proof.
  intros t c Hc. destruct u as [[tg r s] c0]. cbn [type_of rep m_val] in *.
  subst t c. unfold op_neg, c_neg, count, arith_result, unit_of.
  cbn [type_of rep m_val ty val raw_ctor_ok treat_as_floating_point negb orb cast].
  rewrite (convert_id (promote r)) by (apply in_range_promoted; assumption).
  destruct (is_signed (promote r)) eqn:Es.
  - destruct (fits (promote r) (- c0)) eqn:Ef.
    + apply fits_in_range in Ef. cbn [bind val].
      split; [split; [discriminate |] | split; [reflexivity | split]].
      * intros [Ht E]. exfalso. subst c0.
        destruct Ht as [-> | ->]; ranges; lia.
      * intros Hs Hm. split.
        -- rewrite convert_id; [reflexivity |].
           destruct r; try discriminate; ranges; lia.
        -- unfold physical. cbn [m_val type_of scale].
           rewrite inject_Z_opp. ring.
      * intros Ht ->. destruct Ht as [-> | ->]; reflexivity.
    + cbn [bind].
      assert (Hmin : (r = I32 \/ r = I64) /\ c0 = min_of r).
      { destruct (fits_in_range (promote r) (- c0)) as [_ Hin].
        destruct r; try discriminate;
          (assert (Hn : ~ in_range _ (- c0))
             by (intros Hx; apply Hin in Hx; congruence));
          ranges; (split; [solve [auto] | lia]) || (exfalso; lia). }
      split; [split; [intros _; exact Hmin | reflexivity] |].
      split; [intros Hx; congruence |].
      split.
      * intros _ Hm. exfalso. apply Hm, Hmin.
      * intros Ht _. exfalso.
        destruct Hmin as [[-> | ->] _], Ht as [Ht | Ht]; discriminate.
  - cbn [bind val]. rewrite (promote_unsigned r Es), convert_idem.
    split; [split; [discriminate |] | split; [reflexivity | split]].
    + intros [[-> | ->] _]; discriminate.
    + intros Hs. destruct r; discriminate.
    + intros [-> | ->]; discriminate.
Qed.

Lemma op_neg_defined_witness :
  op_neg (Unit example.watt 500) = Ok (Unit example.watt (-500))
  /\ op_neg (Unit (UnitType example.watt_t I8 one) (-128))
     = Ok (Unit (UnitType example.watt_t I8 one) (-128)).
Proof.
  assert (H : in_range I64 500) by (split; discriminate).
  assert (H8 : in_range I8 (-128)) by (split; discriminate).
  split.
  - apply (proj1 (proj2 (proj2 (op_neg_defined (Unit example.watt 500) H))));
      [reflexivity | discriminate].
  - apply (proj2 (proj2 (proj2
             (op_neg_defined (Unit (UnitType example.watt_t I8 one) (-128)) H8))));
      [left; reflexivity | reflexivity].
Defined.

(** X10. For an integral representation and a positive scale, [min()] and
    [max()] bound every quantity of their type: for a quantity [u] with a
    count of its representation, [min() <=> u] is not [greater] and
    [u <=> max()] is not [greater]. *)
Theorem min_max_bound (u : unit) :
  positive (scale (type_of u)) ->
  in_range (rep (type_of u)) (m_val u) ->
  exists lo hi o1 o2,
    min (type_of u) = Ok lo /\ max (type_of u) = Ok hi
    /\ op_cmp lo u = Ok o1 /\ o1 <> Gt
    /\ op_cmp u hi = Ok o2 /\ o2 <> Gt.
Proof.
  intros P Hc. destruct u as [T c]. cbn [type_of m_val] in *.
  pose proof (min_max_of (rep T)) as HT.
  assert (Hlo : in_range (rep T) (min_of (rep T))) by (unfold in_range; lia).
  assert (Hhi : in_range (rep T) (max_of (rep T))) by (unfold in_range; lia).
  exists (Unit T (min_of (rep T))), (Unit T (max_of (rep T))),
    (min_of (rep T) ?= c), (c ?= max_of (rep T)).
  assert (Hu : unit_cast T (Unit T c) = Ok (Unit T c))
    by (apply (unit_cast_same (Unit T c)); assumption).
  assert (Hl : unit_cast T (Unit T (min_of (rep T))) = Ok (Unit T (min_of (rep T))))
    by (apply (unit_cast_same (Unit T (min_of (rep T)))); assumption).
  assert (Hh : unit_cast T (Unit T (max_of (rep T))) = Ok (Unit T (max_of (rep T))))
    by (apply (unit_cast_same (Unit T (max_of (rep T)))); assumption).
  unfold min, max, unit_of, op_cmp.
  cbn [raw_ctor_ok treat_as_floating_point negb orb cast val type_of].
  rewrite !convert_id by assumption.
  rewrite common_unit_t_idem. cbn [bind]. rewrite Hu, Hl, Hh. cbn [bind m_val].
  repeat split; try reflexivity.
  - rewrite Z.compare_gt_iff. unfold in_range in Hc. lia.
  - rewrite Z.compare_gt_iff. unfold in_range in Hc. lia.
Qed.

Lemma min_max_bound_witness :
  exists o,
    op_cmp (Unit example.watt (min_of I64)) (Unit example.watt 500) = Ok o
    /\ o <> Gt.
Proof.
  assert (Pw : positive (scale example.watt)) by (split; reflexivity).
  assert (H : in_range I64 500) by (split; discriminate).
  destruct (min_max_bound (Unit example.watt 500) Pw H)
    as (lo & hi & o1 & o2 & Hlo & _ & Hcmp & Hne & _).
  vm_compute in Hlo. injection Hlo as <-.
  exists o1. split; [exact Hcmp | exact Hne].
Defined.

(** X11. [value<Rep2>()] for an integral [Rep2], of a quantity with an
    integral representation and a scale [n/d] in lowest terms, when the
    product below is representable in the type the multiplication is
    evaluated in: the count, converted to the common representation, times
    [n], divided by [d] towards zero, and the quotient converted to [Rep2].
    For a whole scale ([d = 1]), a count of both representations and a
    product representable in [Rep2], it is the count times [n]. *)
Theorem value_in_whole_units (Rep2 : IntRep) (u : unit) :
  proper (scale (type_of u)) ->
  let S := scale (type_of u) in
  let CT := common_type Rep2 (rep (type_of u)) in
  let v := convert CT (m_val u) in
  in_range (arith CT I64) (v * num S) ->
  value Rep2 u = Ok (TV Rep2 (convert Rep2 (v * num S ÷ den S)))
  /\ (den S = 1 -> in_range Rep2 (m_val u) -> in_range (rep (type_of u)) (m_val u) ->
      in_range Rep2 (m_val u * num S) ->
      value Rep2 u = Ok (TV Rep2 (m_val u * num S))).
Proof.
  intros [L Hok] S CT v Hprod.
  pose proof (ratio_divide_one _ L) as E1. fold S in E1.
  assert (Hcast : unit_cast (UnitType (tag (type_of u)) Rep2 one) u
                  = Ok (Unit (UnitType (tag (type_of u)) Rep2 one)
                          (convert Rep2 (v * num S ÷ den S)))).
  { rewrite (unit_cast_exact (UnitType (tag (type_of u)) Rep2 one) u);
      cbn [tag rep scale]; fold S; rewrite ?E1; fold CT v;
      try reflexivity; try assumption.
    - split; reflexivity.
    - apply L. }
  unfold value. rewrite Hcast. cbn [bind count type_of rep m_val].
  split; [reflexivity |].
  intros Hd H2 Hu Hfit. unfold v.
  rewrite (convert_id CT) by (apply in_range_both_common; assumption).
  rewrite Hd, Z.quot_1_r, convert_id by assumption. reflexivity.
Qed.

Lemma value_in_whole_units_witness :
  value I64 (Unit example.kilosecond 5) = Ok (TV I64 5000)
  /\ value I64 (Unit example.millihz 1999) = Ok (TV I64 1).
Proof.
  assert (Pk : proper (scale example.kilosecond))
    by (repeat split; simpl; try lia; reflexivity).
  assert (Pm : proper (scale example.millihz))
    by (repeat split; simpl; try lia; reflexivity).
  split.
  - refine (proj1 (value_in_whole_units I64 (Unit example.kilosecond 5) Pk _)).
    vm_compute; split; discriminate.
  - refine (proj1 (value_in_whole_units I64 (Unit example.millihz 1999) Pm _)).
    vm_compute; split; discriminate.
Defined.

(** ** Operators with a scalar *)

Section Scalars.

Lemma rem_in_range W a b : in_range W a -> b <> 0 -> in_range W (Z.rem a b).
Proof.
  intros Ha Hb. pose proof (min_max_of W) as HW. unfold in_range in *.
  pose proof (Z.rem_abs a b Hb) as Habs.
  pose proof (Z.rem_le (Z.abs a) (Z.abs b) (Z.abs_nonneg a) ltac:(lia)) as Hle.
  rewrite Habs in Hle.
  destruct (Z.le_gt_cases 0 a) as [Hpos | Hneg].
  - pose proof (Z.rem_nonneg a b Hb Hpos). lia.
  - pose proof (Z.rem_nonpos a b Hb ltac:(lia)). lia.
Qed.

Lemma c_rem_exact x y :
  let W := arith (ty x) (ty y) in
  in_range W (val x) -> in_range W (val y) -> val y <> 0 ->
  in_range W (val x ÷ val y) ->
  c_rem x y = Ok (TV W (Z.rem (val x) (val y))).
Proof.
  intros W Hx Hy Hnz Hq. unfold c_rem. fold W.
  rewrite !convert_id by assumption.
  destruct (Z.eqb_spec (val y) 0) as [E | _]; [contradiction |].
  rewrite (arith_result_exact W (val x ÷ val y)) by assumption.
  cbn [bind]. apply arith_result_exact, rem_in_range; assumption.
Qed.

End Scalars.

(** X12. A quantity times a scalar, in either order, is a quantity of the
    same tag and scale with the common representation of the quantity's
    representation and the scalar's type and the product of count and
    scalar, so its physical value is that of the quantity times the
    scalar.  (Count, scalar and product are taken representable in the
    common representation.) *)
Theorem scalar_product (a : unit) (s : tval) :
  let CT := common_type (rep (type_of a)) (ty s) in
  let T := UnitType (tag (type_of a)) CT (scale (type_of a)) in
  in_range CT (m_val a) -> in_range CT (val s) ->
  in_range CT (m_val a * val s) ->
  op_mul_scalar a s = Ok (Unit T (m_val a * val s))
  /\ op_scalar_mul s a = Ok (Unit T (m_val a * val s))
  /\ (physical (Unit T (m_val a * val s)) == physical a * inject_Z (val s))%Q.
Proof.
  intros CT T Ha Hs Hp.
  assert (E : op_mul_scalar a s = Ok (Unit T (m_val a * val s))).
  { unfold op_mul_scalar. fold CT.
    rewrite c_mul_exact; cbn [count ty val];
      try (apply in_range_common_arith; assumption).
    cbn [bind]. unfold unit_of, cast.
    cbn [raw_ctor_ok treat_as_floating_point negb orb rep ty val].
    rewrite !convert_id by (rewrite ?convert_id; assumption). reflexivity. }
  split; [exact E | split; [exact E |]].
  unfold physical. cbn [m_val type_of scale T].
  rewrite inject_Z_mult. ring.
Qed.

Lemma scalar_product_witness :
  op_scalar_mul (TV I32 2) (Unit example.second 3) = Ok (Unit example.second 6).
Proof.
  refine (proj1 (proj2 (scalar_product (Unit example.second 3) (TV I32 2) _ _ _)));
    vm_compute; split; discriminate.
Defined.

(** X13. A quantity divided by a scalar that is not zero, and its
    remainder, for an integral representation and an integral scalar, when
    the count, the scalar and the quotient are representable in the common
    representation of the two (so not a negative count with an unsigned
    common representation, and not the least count divided by -1): both
    are quantities of the same tag and scale in the common representation,
    with the truncated quotient and the remainder of the count; the
    quotient times the scalar plus the remainder is the count, and the
    remainder is smaller in absolute value than the scalar and has the
    sign of the count. *)
Theorem scalar_division (a : unit) (s : tval) :
  let CT := common_type (rep (type_of a)) (ty s) in
  let T := UnitType (tag (type_of a)) CT (scale (type_of a)) in
  in_range CT (m_val a) -> in_range CT (val s) -> val s <> 0 ->
  in_range CT (m_val a ÷ val s) ->
  op_div_scalar a s = Ok (Unit T (m_val a ÷ val s))
  /\ op_rem_scalar a s = Ok (Unit T (Z.rem (m_val a) (val s)))
  /\ (m_val a ÷ val s) * val s + Z.rem (m_val a) (val s) = m_val a
  /\ Z.abs (Z.rem (m_val a) (val s)) < Z.abs (val s)
  /\ 0 <= Z.rem (m_val a) (val s) * m_val a.
Proof.
  intros CT T Ha Hs Hnz Hq.
  assert (Hr : in_range CT (Z.rem (m_val a) (val s)))
    by (apply rem_in_range; assumption).
  split; [| split; [| split; [| split]]].
  - unfold op_div_scalar. fold CT.
    rewrite c_div_exact; cbn [count ty val];
      try (apply in_range_common_arith; assumption); try assumption.
    cbn [bind]. unfold unit_of, cast.
    cbn [raw_ctor_ok treat_as_floating_point negb orb rep ty val].
    rewrite !convert_id by (rewrite ?convert_id; assumption). reflexivity.
  - unfold op_rem_scalar. fold CT.
    rewrite c_rem_exact; cbn [count ty val];
      try (apply in_range_common_arith; assumption); try assumption.
    cbn [bind]. unfold unit_of, cast.
    cbn [raw_ctor_ok treat_as_floating_point negb orb rep ty val].
    rewrite !convert_id by (rewrite ?convert_id; assumption). reflexivity.
  - pose proof (Z.quot_rem' (m_val a) (val s)). lia.
  - apply Z.rem_bound_abs. assumption.
  - destruct (Z.le_gt_cases 0 (m_val a)) as [Hpos | Hneg].
    + pose proof (Z.rem_nonneg (m_val a) (val s) Hnz Hpos). nia.
    + pose proof (Z.rem_nonpos (m_val a) (val s) Hnz ltac:(lia)). nia.
Qed.

Lemma scalar_division_witness :
  op_div_scalar (Unit example.second (-7)) (TV I32 2) = Ok (Unit example.second (-3))
  /\ op_rem_scalar (Unit example.second (-7)) (TV I32 2)
     = Ok (Unit example.second (-1)).
Proof.
  assert (H7 : in_range I64 (-7)) by (split; discriminate).
  assert (H2 : in_range I64 2) by (split; discriminate).
  assert (H3 : in_range I64 (-7 ÷ 2)) by (split; discriminate).
  destruct (scalar_division (Unit example.second (-7)) (TV I32 2) H7 H2
              ltac:(discriminate) H3) as (Hd & Hr & _).
  split; [exact Hd | exact Hr].
Defined.

(** ** Quotient and remainder of two quantities *)

Section QuotientRemainder.


End QuotientRemainder.



(** ** The duration bridge, in general *)

Section BridgeFacts.

Lemma common_intmax t : common_type t I64 = arith t I64.
Proof. destruct t; reflexivity. Qed.

Lemma arith_intmax_self t : arith (arith t I64) (arith t I64) = arith t I64.
Proof. destruct t; reflexivity. Qed.

Lemma period_ok_positive P : chrono.period_ok P = true -> positive P.
Proof.
  unfold chrono.period_ok. rewrite andb_true_iff, Z.ltb_lt.
  intros [Hok Hn]. destruct (ratio_ok_fits _ Hok) as (Hd & _). split; assumption.
Qed.

End BridgeFacts.

(** X15. The conversion of a quantity to a duration has no narrowing
    guard: for a duration-compatible tag it yields the count of
    [unit_cast] to the duration's representation and period, truncated
    towards zero when the period is coarser; for a tag that is not
    duration-compatible neither the conversion to a duration nor the
    construction from one compiles. *)
Theorem to_duration_truncates (Rep2 : IntRep) (Scale2 : ratio) (u : unit) :
  (is_duration_type (tag (type_of u)) = false ->
   to_duration Rep2 Scale2 u = IllFormed
   /\ forall d, unit_from_duration (type_of u) d = IllFormed)
  /\ (is_duration_type (tag (type_of u)) = true ->
      positive (scale (type_of u)) -> chrono.period_ok Scale2 = true ->
      let Q := ratio_divide (scale (type_of u)) Scale2 in
      let CT := common_type Rep2 (rep (type_of u)) in
      let v := convert CT (m_val u) in
      ratio_ok Q = true ->
      in_range (arith CT I64) (v * num Q) ->
      to_duration Rep2 Scale2 u
      = Ok (chrono.Duration Rep2 Scale2 (convert Rep2 (v * num Q ÷ den Q)))).
Proof.
  split.
  - intros Hd. unfold to_duration, unit_from_duration, duration_ctor_ok.
    rewrite Hd. split; [reflexivity | intros d; reflexivity].
  - intros Hd Pu Hp Q CT v Hok Hprod.
    unfold to_duration. rewrite Hd, Hp. cbn [andb negb].
    rewrite (unit_cast_exact (UnitType (tag (type_of u)) Rep2 Scale2) u);
      cbn [tag rep scale]; fold Q CT v;
      try assumption; try reflexivity;
      try (apply period_ok_positive; assumption).
    cbn [bind count cast val type_of rep m_val].
    rewrite convert_idem. reflexivity.
Qed.

Lemma to_duration_truncates_witness :
  to_duration I64 kilo (Unit example.second 5999)
  = Ok (chrono.Duration I64 kilo 5).
Proof.
  assert (P : positive (scale example.second)) by (split; reflexivity).
  assert (H : in_range I64 5999) by (split; discriminate).
  exact (proj2 (to_duration_truncates I64 kilo (Unit example.second 5999))
           eq_refl P eq_refl eq_refl H).
Defined.

(** X16. For integral representations: constructing a quantity of a
    duration-compatible tag from a duration whose period is [k] times the
    quantity's scale, when the tick count is of the duration's
    representation and the tick count times [k] is representable in the
    quantity's representation, stores the tick count times [k], the same
    quantity as the converting constructor gives for a quantity with the
    duration's representation, period and count; a duration whose period
    is not a whole multiple of the scale is rejected at compile time. *)
Theorem unit_from_duration_lossless (T : unit_t) (d : chrono.duration) (k : Z) :
  is_duration_type (tag T) = true ->
  chrono.period_ok (scale T) = true -> positive (chrono.period d) ->
  (den (ratio_divide (chrono.period d) (scale T)) <> 1 ->
   unit_from_duration T d = IllFormed)
  /\ (ratio_divide (chrono.period d) (scale T) = Ratio k 1 ->
      0 < k -> in_range I64 k ->
      in_range (chrono.d_rep d) (chrono.ticks d) ->
      in_range (rep T) (chrono.ticks d * k) ->
      unit_from_duration T d = Ok (Unit T (chrono.ticks d * k))
      /\ unit_from_unit T
           (Unit (UnitType (tag T) (chrono.d_rep d) (chrono.period d))
              (chrono.ticks d))
         = Ok (Unit T (chrono.ticks d * k))).
Proof.
  intros Hdur HpT Pd. pose proof (period_ok_positive _ HpT) as PT.
  destruct d as [r p c]. cbn [chrono.d_rep chrono.period chrono.ticks] in *.
  split.
  - intros Hden. unfold unit_from_duration, duration_ctor_ok.
    cbn [chrono.d_rep chrono.period treat_as_floating_point orb negb].
    apply Z.eqb_neq in Hden. rewrite Hden, andb_false_r. reflexivity.
  - intros EQ Hk Hk64 Hc Hck.
    assert (HcT : in_range (rep T) c) by (eapply factor_in_range; eassumption).
    assert (HcCT : in_range (common_type (rep T) r) c)
      by (apply in_range_both_common; assumption).
    assert (HW : in_range (arith (common_type (rep T) r) I64) (c * k))
      by (apply (cast_product_in_range _ _ c); try assumption; nia).
    split.
    + unfold unit_from_duration, duration_ctor_ok, chrono.duration_cast.
      cbn [chrono.d_rep chrono.period chrono.ticks
           treat_as_floating_point orb negb].
      rewrite Hdur, EQ, HpT. cbn [num den Z.eqb Pos.eqb andb negb].
      replace (ratio_ok (Ratio k 1)) with true
        by (unfold ratio_ok; cbn [num den]; apply fits_in_range in Hk64;
            rewrite Hk64; reflexivity).
      cbn [negb]. rewrite andb_true_r.
      destruct (Z.eqb_spec k 1) as [-> | Hk1].
      * cbn [bind cast val chrono.d_rep chrono.ticks].
        rewrite Z.mul_1_r in *. rewrite !convert_idem.
        rewrite convert_id by assumption. reflexivity.
      * rewrite common_intmax. unfold cast. cbn [ty val].
        assert (Hc' : in_range (arith (common_type (rep T) r) I64) c)
          by (apply in_range_arith_intmax; assumption).
        assert (Hk' : in_range (arith (common_type (rep T) r) I64) k)
          by (apply intmax_pos_in_range; [lia | assumption]).
        rewrite (convert_id _ c Hc'), (convert_id _ k Hk').
        rewrite c_mul_exact; cbn [ty val]; rewrite ?arith_intmax_self;
          try assumption.
        cbn [bind val chrono.d_rep chrono.ticks].
        rewrite convert_idem, convert_id by assumption. reflexivity.
    + unfold unit_from_unit, converting_ctor_ok.
      cbn [type_of tag rep scale treat_as_floating_point orb negb].
      rewrite Tag_eqb_refl, EQ. cbn [num den Z.eqb Pos.eqb andb negb].
      rewrite (cast_to_multiple T (Unit (UnitType (tag T) r p) c) k);
        cbn [type_of tag rep scale m_val]; try assumption; try reflexivity.
      cbn [bind count cast val type_of rep m_val].
      rewrite convert_id by assumption. reflexivity.
Qed.

Lemma unit_from_duration_lossless_witness :
  unit_from_duration example.second (chrono.Duration I64 kilo 5)
  = Ok (Unit example.second 5000).
Proof.
  assert (P : positive kilo) by (split; reflexivity).
  assert (H1 : in_range I64 1000) by (split; discriminate).
  assert (H2 : in_range I64 5) by (split; discriminate).
  assert (H3 : in_range I64 (5 * 1000)) by (split; discriminate).
  exact (proj1 (proj2 (unit_from_duration_lossless example.second
                         (chrono.Duration I64 kilo 5) 1000 eq_refl eq_refl P)
                  eq_refl eq_refl H1 H2 H3)).
Defined.

(** ** Declaring relations *)

Section Declarations.

Lemma specialise_defined l T U r : ops.specialise l T U r <> Undefined.
Proof. unfold ops.specialise. destruct (ops.find l T U); discriminate. Qed.

Lemma Tag_eqb_sym a b : Tag_eqb a b = Tag_eqb b a.
Proof.
  destruct (Tag_eqb a b) eqn:E.
  - apply Tag_eqb_eq in E. subst. symmetry. apply Tag_eqb_refl.
  - destruct (Tag_eqb b a) eqn:E'; [| reflexivity].
    apply Tag_eqb_eq in E'. subst. rewrite Tag_eqb_refl in E. discriminate.
Qed.

(** The table a [SU_MUL] that compiles leaves behind. *)
Lemma SU_MUL_table tbl tbl' A B C :
  SU_MUL A B C tbl = Ok tbl' ->
  tbl' = ops.Table ((B, A, C) :: (A, B, C) :: ops.mul_specs tbl)
           ((C, B, A) :: (C, A, B) :: ops.div_specs tbl)
  /\ Tag_eqb A B = false
  /\ ops.find (ops.mul_specs tbl) A B = None
  /\ ops.find (ops.mul_specs tbl) B A = None
  /\ ops.find (ops.div_specs tbl) C A = None
  /\ ops.find (ops.div_specs tbl) C B = None.
Proof.
  unfold SU_MUL. intros H.
  destruct (ops.specialise (ops.div_specs tbl) C A B) as [d1 | |] eqn:E1;
    try discriminate.
  cbn [bind] in H.
  destruct (ops.specialise d1 C B A) as [d2 | |] eqn:E2; try discriminate.
  cbn [bind] in H.
  destruct (ops.specialise (ops.mul_specs tbl) A B C) as [m1 | |] eqn:E3;
    try discriminate.
  cbn [bind] in H.
  destruct (ops.specialise m1 B A C) as [m2 | |] eqn:E4; try discriminate.
  cbn [bind] in H. injection H as <-.
  apply specialise_ok in E1 as [F1 ->], E2 as [F2 ->],
    E3 as [F3 ->], E4 as [F4 ->].
  simpl in F2, F4. rewrite Tag_eqb_refl in F2. cbn [andb] in F2.
  assert (HBA : Tag_eqb B A = false)
    by (destruct (Tag_eqb B A); [discriminate | reflexivity]).
  rewrite HBA in F2, F4. cbn [andb] in F4.
  rewrite (Tag_eqb_sym A B), HBA.
  repeat split; assumption.
Qed.

End Declarations.

(** X17. A relation of a tag with itself cannot be declared:
    [SU_MUL(A, A, C)] (and so [SU_INV(A, A)]) specialises [div<C, A>] twice
    and does not compile.  After a [SU_MUL(A, B, C)] that compiles, no
    further relation for the pair [A], [B] can be declared, in either
    order and whatever its result: not the same relation again, and not a
    conflicting one. *)
Theorem relations_declared_once (tbl : ops.table) (A B C : Tag) :
  SU_MUL A A C tbl = IllFormed
  /\ SU_INV A A tbl = IllFormed
  /\ (forall tbl', SU_MUL A B C tbl = Ok tbl' ->
        A <> B
        /\ forall C', SU_MUL A B C' tbl' = IllFormed
                      /\ SU_MUL B A C' tbl' = IllFormed).
Proof.
  assert (Hsq : forall t X Z, SU_MUL X X Z t = IllFormed).
  { intros t X Z. unfold SU_MUL.
    destruct (ops.specialise (ops.div_specs t) Z X X) as [d1 | |] eqn:E1;
      cbn [bind]; [| reflexivity | apply specialise_defined in E1; contradiction].
    apply specialise_ok in E1 as [_ ->].
    unfold ops.specialise at 1. rewrite find_head. reflexivity. }
  split; [apply Hsq | split; [apply Hsq |]].
  intros tbl' Hdecl.
  destruct (SU_MUL_table _ _ _ _ _ Hdecl) as (-> & HAB & _).
  split.
  - intros ->. rewrite Tag_eqb_refl in HAB. discriminate.
  - intros C'. unfold SU_MUL. cbn [ops.mul_specs ops.div_specs].
    split.
    + destruct (ops.specialise _ C' A B) as [d1 | |] eqn:E1; cbn [bind];
        [| reflexivity | apply specialise_defined in E1; contradiction].
      destruct (ops.specialise d1 C' B A) as [d2 | |] eqn:E2; cbn [bind];
        [| reflexivity | apply specialise_defined in E2; contradiction].
      unfold ops.specialise at 1.
      rewrite find_skip by (rewrite HAB; reflexivity).
      rewrite find_head. reflexivity.
    + destruct (ops.specialise _ C' B A) as [d1 | |] eqn:E1; cbn [bind];
        [| reflexivity | apply specialise_defined in E1; contradiction].
      destruct (ops.specialise d1 C' A B) as [d2 | |] eqn:E2; cbn [bind];
        [| reflexivity | apply specialise_defined in E2; contradiction].
      unfold ops.specialise at 1. rewrite find_head. reflexivity.
Qed.

Lemma relations_declared_once_witness :
  exists tbl,
    example.relations = Ok tbl
    /\ SU_MUL example.second_t example.watt_t example.joule_t tbl = IllFormed
    /\ SU_MUL example.watt_t example.second_t example.hz_t tbl = IllFormed.
Proof.
  eexists. split; [vm_compute; reflexivity |].
  match goal with
  | |- SU_MUL _ _ _ ?t = _ /\ _ =>
      destruct (proj2 (proj2 (relations_declared_once
                 (ops.Table [(example.hz_t, example.second_t, void);
                             (example.second_t, example.hz_t, void);
                             (void, void, void)]
                            [(void, example.hz_t, example.second_t);
                             (void, example.second_t, example.hz_t)])
                 example.second_t example.watt_t example.joule_t))
                 t eq_refl) as [_ H]
  end.
  split; [apply (H example.joule_t) | apply (H example.hz_t)].
Defined.

(** X18. A declaration changes no other relation: after a [SU_MUL(A, B, C)]
    that compiles, the product of every pair of tags other than [A], [B]
    (in either order) and the quotient of every pair other than [C], [A]
    and [C], [B] are looked up as before. *)
Theorem SU_MUL_frame (tbl tbl' : ops.table) (A B C X Y : Tag) :
  SU_MUL A B C tbl = Ok tbl' ->
  ((X, Y) <> (A, B) -> (X, Y) <> (B, A) ->
   ops.mul tbl' X Y = ops.mul tbl X Y)
  /\ ((X, Y) <> (C, A) -> (X, Y) <> (C, B) ->
      ops.div tbl' X Y = ops.div tbl X Y).
Proof.
  intros Hdecl. destruct (SU_MUL_table _ _ _ _ _ Hdecl) as (-> & _).
  assert (Hne : forall P Q : Tag, (X, Y) <> (P, Q) ->
            Tag_eqb X P && Tag_eqb Y Q = false).
  { intros P Q Hn. destruct (Tag_eqb X P && Tag_eqb Y Q) eqn:E; [| reflexivity].
    apply andb_true_iff in E as [E1 E2].
    apply Tag_eqb_eq in E1, E2. subst. contradiction. }
  split; intros H1 H2.
  - unfold ops.mul. cbn [ops.mul_specs].
    rewrite !find_skip by (apply Hne; assumption). reflexivity.
  - unfold ops.div. cbn [ops.div_specs].
    rewrite !find_skip by (apply Hne; assumption). reflexivity.
Qed.

Lemma SU_MUL_frame_witness :
  exists tbl,
    example.relations = Ok tbl
    /\ ops.mul tbl example.second_t example.hz_t = ops.Type_ void.
Proof.
  eexists. split; [vm_compute; reflexivity |].
  match goal with
  | |- ops.mul ?t _ _ = _ =>
      rewrite (proj1 (SU_MUL_frame
                 (ops.Table [(example.hz_t, example.second_t, void);
                             (example.second_t, example.hz_t, void);
                             (void, void, void)]
                            [(void, example.hz_t, example.second_t);
                             (void, example.second_t, example.hz_t)])
                 t example.second_t example.watt_t example.joule_t
                 example.second_t example.hz_t eq_refl))
  end; [reflexivity | discriminate | discriminate].
Defined.

(** ** Inverse tags and dimensionless quantities *)

(** X19. After a [SU_INV(A, B)] that compiles, for integral
    representations and positive scales, the product of a quantity tagged
    [A] and one tagged [B], in either order, is a plain number of the
    common representation: the product of the counts, times [num], divided
    by [den] towards zero, where [num/den] is the product of the two
    scales in lowest terms; this when both counts, their product and the
    final quotient are representable in the common representation, and the
    product with [num] in the type it is evaluated in.  For a product of
    counts that is not negative, the result is the product of the physical
    values rounded down. *)
Theorem inverse_product (tbl tbl' : ops.table) (A B : Tag) (x y : unit) :
  SU_INV A B tbl = Ok tbl' ->
  (tag (type_of x) = A /\ tag (type_of y) = B)
  \/ (tag (type_of x) = B /\ tag (type_of y) = A) ->
  positive (scale (type_of x)) -> positive (scale (type_of y)) ->
  let CT := common_type (rep (type_of x)) (rep (type_of y)) in
  let S := ratio_multiply (scale (type_of x)) (scale (type_of y)) in
  ratio_ok S = true ->
  in_range CT (m_val x) -> in_range CT (m_val y) ->
  in_range CT (m_val x * m_val y) ->
  in_range (arith CT I64) (m_val x * m_val y * num S) ->
  in_range CT (m_val x * m_val y * num S ÷ den S) ->
  op_mul tbl' x y = Ok (Plain (TV CT (m_val x * m_val y * num S ÷ den S)))
  /\ (0 <= m_val x * m_val y ->
      (inject_Z (m_val x * m_val y * num S ÷ den S) <= physical x * physical y)%Q
      /\ (physical x * physical y
          < inject_Z (m_val x * m_val y * num S ÷ den S) + 1)%Q).
Proof.
  intros Hdecl Htags Px Py CT S Hok Hx Hy Hxy Hprod Hq.
  pose proof (SU_MUL_lookup _ _ _ _ _ Hdecl) as (M1 & M2 & _).
  split.
  - rewrite (op_mul_plain tbl' x y); try assumption.
    + fold CT S. rewrite convert_id by assumption. reflexivity.
    + destruct Htags as [[-> ->] | [-> ->]]; assumption.
  - intros Hpos.
    destruct (ratio_multiply_pos _ _ Px Py) as [[[Hn Hd] _] E].
    fold S in Hn, Hd, E. destruct Px as [Hnx Hdx], Py as [Hny Hdy].
    destruct (truncation_bounds (m_val x * m_val y) (num S) (den S)
                (num (scale (type_of x)) * num (scale (type_of y))) 1
                (den (scale (type_of x)) * den (scale (type_of y))) 1
                Hn Hd ltac:(lia) ltac:(nia)) as [Bd _].
    { transitivity (num S * (den (scale (type_of x)) * den (scale (type_of y))));
        [ring | rewrite E; ring]. }
    specialize (Bd Hpos). cbn zeta in Bd.
    unfold physical, Qle, Qlt, Qplus, Qmult, inject_Z. cbn [Qnum Qden].
    rewrite !Pos2Z.inj_mul, !Z2Pos.id by assumption.
    change (Z.pos 1) with 1.
    split; nia.
Qed.

Lemma inverse_product_witness :
  exists tbl,
    SU_INV example.second_t example.hz_t ops.header = Ok tbl
    /\ op_mul tbl (Unit example.kilosecond 3) (Unit example.millihz 2)
       = Ok (Plain (TV I64 6)).
Proof.
  eexists. split; [vm_compute; reflexivity |].
  match goal with
  | |- op_mul ?t _ _ = _ =>
      refine (proj1 (inverse_product ops.header t example.second_t
                       example.hz_t (Unit example.kilosecond 3)
                       (Unit example.millihz 2) eq_refl
                       (or_introl (conj eq_refl eq_refl)) _ _ _ _ _ _ _ _))
  end; vm_compute; split; (reflexivity || discriminate).
Defined.

(** X20. After a [SU_INV(A, B)] of two declared tags, for integral
    representations, a dimensionless quantity divided by a quantity tagged
    [A] whose count is not zero is a quantity tagged [B] whose count is
    the truncated quotient of the counts and whose scale is the quotient
    of the scales, when both counts and their quotient are representable
    in the common representation.  Of the three dimensionless constants,
    which all have the scale [std::nano], [as_nano] has the physical value
    1, [as_micro] 1/1000 and [as_milli] 1/1000000; so [as_nano / f] for a
    frequency of [f] whole units is [1000000000 / f] nanoseconds. *)
Theorem reciprocal (tbl tbl' : ops.table) (A B R : Tag) (q a : unit) :
  SU_INV A B tbl = Ok tbl' ->
  A <> void -> B <> void ->
  tag (type_of q) = void ->
  (tag (type_of a) = A /\ R = B) \/ (tag (type_of a) = B /\ R = A) ->
  let CT := common_type (rep (type_of q)) (rep (type_of a)) in
  let S := ratio_divide (scale (type_of q)) (scale (type_of a)) in
  ratio_ok S = true ->
  in_range CT (m_val q) -> in_range CT (m_val a) -> m_val a <> 0 ->
  in_range CT (m_val q ÷ m_val a) ->
  op_div tbl' q a = Ok (Quantity (Unit (UnitType R CT S) (m_val q ÷ m_val a)))
  /\ (exists n u m,
        as_nano = Ok n /\ as_micro = Ok u /\ as_milli = Ok m
        /\ (physical n == 1)%Q /\ (physical u == 1 # 1000)%Q
        /\ (physical m == 1 # 1000000)%Q
        /\ (q = n -> rep (type_of a) = I64 -> scale (type_of a) = one ->
            op_div tbl' q a
            = Ok (Quantity (Unit (UnitType R I64 nano) (1000000000 ÷ m_val a))))).
Proof.
  intros Hdecl HA HB Hq Ha CT S Hok Hcq Hca Hnz Hquo.
  pose proof (SU_MUL_lookup _ _ _ _ _ Hdecl) as (_ & _ & D1 & D2).
  assert (Hdiv : op_div tbl' q a
                 = Ok (Quantity (Unit (UnitType R CT S) (m_val q ÷ m_val a)))).
  { apply op_div_quantity; try assumption.
    - rewrite Hq. destruct Ha as [[-> ->] | [-> ->]]; assumption.
    - destruct Ha as [[_ ->] | [_ ->]]; assumption. }
  split; [exact Hdiv |].
  exists (Unit (quantity I64 nano) 1000000000),
    (Unit (quantity I64 nano) 1000000), (Unit (quantity I64 nano) 1000).
  repeat split; try reflexivity.
  intros -> Hr Hs. rewrite Hdiv. unfold CT, S. rewrite Hr, Hs. reflexivity.
Qed.

Lemma reciprocal_witness :
  exists tbl,
    SU_INV example.second_t example.hz_t ops.header = Ok tbl
    /\ op_div tbl (Unit (quantity I64 nano) 1000000000) (Unit example.hz 20000000)
       = Ok (Quantity (Unit (UnitType example.second_t I64 nano) 50)).
Proof.
  eexists. split; [vm_compute; reflexivity |].
  match goal with
  | |- op_div ?t _ _ = _ =>
      refine (proj1 (reciprocal ops.header t example.second_t example.hz_t
                       example.second_t
                       (Unit (quantity I64 nano) 1000000000)
                       (Unit example.hz 20000000) eq_refl _ _ eq_refl
                       (or_intror (conj eq_refl eq_refl)) _ _ _ _ _))
  end; try discriminate; vm_compute; try reflexivity; split; discriminate.
Defined.

(** X21. With no explicit specialisation for a pair with the
    dimensionless marker, the built-in rules apply: for integral
    representations, a quantity of a declared tag times or divided by a
    dimensionless quantity (not zero, for the division) keeps its tag,
    with the product or quotient of the counts and of the scales, when
    both counts and that product or quotient are representable in the
    common representation; and one dimensionless quantity divided by
    another does not compile, because [div<T, T>] and [div<T, void>] both
    match. *)
Theorem dimensionless_operand (tbl : ops.table) (x q : unit) :
  tag (type_of q) = void ->
  ops.find (ops.div_specs tbl) (tag (type_of x)) void = None ->
  (tag (type_of x) = void -> op_div tbl x q = IllFormed)
  /\ (tag (type_of x) <> void ->
      let CT := common_type (rep (type_of x)) (rep (type_of q)) in
      in_range CT (m_val x) -> in_range CT (m_val q) ->
      (let S := ratio_multiply (scale (type_of x)) (scale (type_of q)) in
       ops.find (ops.mul_specs tbl) (tag (type_of x)) void = None ->
       ratio_ok S = true -> in_range CT (m_val x * m_val q) ->
       op_mul tbl x q
       = Ok (Quantity (Unit (UnitType (tag (type_of x)) CT S) (m_val x * m_val q))))
      /\ (let S := ratio_divide (scale (type_of x)) (scale (type_of q)) in
          ratio_ok S = true -> m_val q <> 0 -> in_range CT (m_val x ÷ m_val q) ->
          op_div tbl x q
          = Ok (Quantity (Unit (UnitType (tag (type_of x)) CT S) (m_val x ÷ m_val q))))).
Proof.
  intros Hq Hd. split.
  - intros Hx. unfold op_div, ops.div. rewrite Hq. rewrite Hd, Hx. reflexivity.
  - intros Hx CT Hcx Hcq. split.
    + intros S Hm Hok Hp. apply op_mul_quantity; try assumption.
      unfold ops.mul. rewrite Hq, Hm. destruct (tag (type_of x));
        [contradiction | reflexivity | reflexivity].
    + intros S Hok Hnz Hquo. apply op_div_quantity; try assumption.
      unfold ops.div. rewrite Hq, Hd. destruct (tag (type_of x));
        [contradiction | reflexivity | reflexivity].
Qed.

Lemma dimensionless_operand_witness :
  op_div ops.header (Unit (quantity I64 nano) 1000) (Unit (quantity I64 nano) 10)
  = IllFormed
  /\ op_mul ops.header (Unit example.second 3) (Unit (quantity I64 kilo) 2)
     = Ok (Quantity (Unit example.kilosecond 6)).
Proof.
  split.
  - exact (proj1 (dimensionless_operand ops.header
                    (Unit (quantity I64 nano) 1000) (Unit (quantity I64 nano) 10)
                    eq_refl eq_refl) eq_refl).
  - refine (proj1 (proj2 (dimensionless_operand ops.header
                            (Unit example.second 3) (Unit (quantity I64 kilo) 2)
                            eq_refl eq_refl) _ _ _) eq_refl _ _);
      try discriminate; vm_compute; try reflexivity; split; discriminate.
Defined.

(** ** Order under [unit_cast] *)

(** X22. [unit_cast] keeps the order: of two quantities of one type whose
    counts are ordered, the casts to a target type have counts ordered
    the same way (equal at worst, when the truncation merges them); the
    comparison of the casts is never the opposite of the comparison of
    the sources. *)
Theorem unit_cast_monotone (To : unit_t) (u1 u2 : unit) :
  type_of u1 = type_of u2 ->
  tag To = tag (type_of u1) ->
  positive (scale To) -> positive (scale (type_of u1)) ->
  let Q := ratio_divide (scale (type_of u1)) (scale To) in
  let CT := common_type (rep To) (rep (type_of u1)) in
  ratio_ok Q = true ->
  in_range CT (m_val u1) -> in_range CT (m_val u2) ->
  in_range (arith CT I64) (m_val u1 * num Q) ->
  in_range (arith CT I64) (m_val u2 * num Q) ->
  in_range (rep To) (m_val u1 * num Q ÷ den Q) ->
  in_range (rep To) (m_val u2 * num Q ÷ den Q) ->
  m_val u1 <= m_val u2 ->
  exists x1 x2,
    unit_cast To u1 = Ok x1 /\ unit_cast To u2 = Ok x2
    /\ m_val x1 <= m_val x2.
Proof.
  intros HT Htag PTo Pu Q CT Hok H1 H2 Hp1 Hp2 Hq1 Hq2 Hle.
  destruct (ratio_divide_pos _ _ Pu PTo) as [[[Hn Hd] _] _]. fold Q in Hn, Hd.
  exists (Unit To (m_val u1 * num Q ÷ den Q)),
    (Unit To (m_val u2 * num Q ÷ den Q)).
  split; [| split].
  - pose proof (unit_cast_exact To u1 Htag PTo Pu Hok) as E.
    cbn zeta in E. fold Q CT in E. rewrite (convert_id CT _ H1) in E.
    rewrite (E Hp1), convert_id by assumption. reflexivity.
  - assert (Htag2 : tag To = tag (type_of u2)) by (rewrite <- HT; exact Htag).
    assert (Pu2 : positive (scale (type_of u2))) by (rewrite <- HT; exact Pu).
    pose proof (unit_cast_exact To u2 Htag2 PTo Pu2) as E.
    cbn zeta in E. rewrite <- HT in E. fold Q CT in E.
    rewrite (convert_id CT _ H2) in E.
    rewrite (E Hok Hp2), convert_id by assumption. reflexivity.
  - cbn [m_val]. apply Z.quot_le_mono; [assumption | nia].
Qed.

Lemma unit_cast_monotone_witness :
  exists x1 x2,
    unit_cast example.kilowatt (Unit example.watt 1999) = Ok x1
    /\ unit_cast example.kilowatt (Unit example.watt 2001) = Ok x2
    /\ m_val x1 <= m_val x2.
Proof.
  assert (Pw : positive (scale example.watt)) by (split; reflexivity).
  assert (Pk : positive (scale example.kilowatt)) by (split; reflexivity).
  refine (unit_cast_monotone example.kilowatt (Unit example.watt 1999)
            (Unit example.watt 2001) eq_refl eq_refl Pk Pw eq_refl
            _ _ _ _ _ _ _);
    vm_compute; try split; discriminate.
Defined.
